(** * Answer checking of the lesson runner (src/components/LessonRunner.tsx)

    A shallow embedding of the pronunciation scorer and of the answer
    evaluator of [LessonRunner.tsx]: [levenshtein], [calculateSimilarity],
    [getPronunciationFeedback] and the click handler [handleCheck], together
    with the part of the render function that chooses the text shown under a
    verdict.

    Modelling conventions.
    - A JavaScript string is the list of its UTF-16 code units.  The
      embedding covers the code units 0..255 (type [ascii]); on that range
      [toLowerCase], [trim] and the regular expression class [\s] are
      modelled exactly.
    - A JavaScript array used through indexed reads and writes only (the
      matrix of [levenshtein]) is a finite map from indices to values.
    - An abrupt completion (a [TypeError]) or a read of an unset matrix cell
      is [None] in the option monad; the results below show that no run of
      the modelled code ends that way on a well-formed lesson.
    - JavaScript numbers that hold lengths, indices and distances are
      natural numbers; the quotient computed by [calculateSimilarity] is an
      exact rational (type [Q]), compared up to [Qeq].  [similarityDouble]
      evaluates the same expression in double precision, and the test
      against each threshold has the same outcome on either for strings of
      up to 400 units ([double_test_agrees]).
    - The feedback sentences are bilingual template strings; they are
      represented by the constructors of [Message], one per template, which
      carry the words spliced into the template. *)

From Stdlib Require Import Ascii String QArith Lqa Floats.
From stdpp Require Import base option list gmap strings.

Local Open Scope nat_scope.

(** ** Strings *)

Abbreviation str := (list ascii).

(** [s.charAt(k)]: the one-unit string at index [k], or the empty string
    out of range; two results are [===] exactly when the lookups agree. *)
Definition charAt (s : str) (k : nat) : option ascii := s !! k.

(** Code units that [String.prototype.trim] removes and that [\s] matches:
    TAB, LF, VT, FF, CR, SPACE and NO-BREAK SPACE. *)
Definition isWhiteSpace (c : ascii) : bool :=
  let n := nat_of_ascii c in
  ((9 <=? n) && (n <=? 13)) || (n =? 32) || (n =? 160).

(** [toLowerCase] on one code unit: A-Z, and the Latin-1 capitals
    U+00C0..U+00DE except the multiplication sign U+00D7. *)
Definition toLowerCaseUnit (c : ascii) : ascii :=
  let n := nat_of_ascii c in
  if ((65 <=? n) && (n <=? 90))
     || ((192 <=? n) && (n <=? 222) && negb (n =? 215))
  then ascii_of_nat (n + 32) else c.

Definition toLowerCase (s : str) : str := map toLowerCaseUnit s.

(** The character class of [/[.,\/#!$%\^&\*;:{}=\-_`~()]/g]. *)
Definition punctuationClass (c : ascii) : bool :=
  match nat_of_ascii c with
  | 46 (* . *) | 44 (* , *) | 47 (* / *) | 35 (* # *) | 33 (* ! *)
  | 36 (* $ *) | 37 (* % *) | 94 (* ^ *) | 38 (* & *) | 42 (* * *)
  | 59 (* ; *) | 58 (* : *) | 123 (* { *) | 125 (* } *) | 61 (* = *)
  | 45 (* - *) | 95 (* _ *) | 96 (* ` *) | 126 (* ~ *) | 40 (* ( *)
  | 41 (* ) *) => true
  | _ => false
  end.

(** [s.replace(/[...]/g, "")]. *)
Definition stripPunctuation (s : str) : str :=
  filter (fun c => punctuationClass c = false) s.

Fixpoint trimStart (s : str) : str :=
  match s with
  | c :: s' => if isWhiteSpace c then trimStart s' else s
  | [] => []
  end.

Definition trimEnd (s : str) : str := rev (trimStart (rev s)).

Definition trim (s : str) : str := trimEnd (trimStart s).

(** [s.split(/\s+/)]: the pieces between maximal runs of white space; a run
    at either end of [s] leaves an empty piece there, and the empty string
    splits into one empty piece. *)
Fixpoint splitWhiteSpace (s : str) : list str :=
  match s with
  | [] => [[]]
  | c :: s' =>
      if isWhiteSpace c then
        match s' with
        | c' :: _ => if isWhiteSpace c' then splitWhiteSpace s'
                     else [] :: splitWhiteSpace s'
        | [] => [] :: splitWhiteSpace s'
        end
      else
        match splitWhiteSpace s' with
        | w :: ws => (c :: w) :: ws
        | [] => [[c]]
        end
  end.

Fixpoint startsWith (s t : str) : bool :=
  match t, s with
  | [], _ => true
  | _ :: _, [] => false
  | d :: t', c :: s' => bool_decide (c = d) && startsWith s' t'
  end.

(** [s.includes(t)]: [t] occurs in [s] as a contiguous run. *)
Fixpoint includes (s t : str) : bool :=
  startsWith s t ||
  match s with
  | [] => false
  | _ :: s' => includes s' t
  end.

(** A value is truthy when it is neither [null] nor the empty string. *)
Definition truthy (o : option str) : bool :=
  match o with
  | Some (_ :: _) => true
  | _ => false
  end.

(** ** The edit-distance matrix *)

(** [for (let i = lo; i < lo + n; i++) body], the body threading the state
    and possibly completing abruptly. *)
Fixpoint forLoop {St : Type} (lo n : nat) (body : nat → St → option St)
    (st : St) : option St :=
  match n with
  | 0 => Some st
  | S n' => st' ← body lo st; forLoop (S lo) n' body st'
  end.

(** [matrix[i][j]]. *)
Definition getCell (matrix : gmap nat (gmap nat nat)) (i j : nat) : option nat :=
  row ← matrix !! i; row !! j.

(** [matrix[i][j] = v]: the row object [matrix[i]] must exist. *)
Definition setCell (matrix : gmap nat (gmap nat nat)) (i j v : nat)
  : option (gmap nat (gmap nat nat)) :=
  row ← matrix !! i; Some (<[i := <[j := v]> row]> matrix).

Definition levenshteinCell (a b : str) (i : nat)
    (matrix : gmap nat (gmap nat nat)) (j : nat)
  : option (gmap nat (gmap nat nat)) :=
  if bool_decide (charAt b (i - 1) = charAt a (j - 1)) then
    d ← getCell matrix (i - 1) (j - 1);
    setCell matrix i j d
  else
    d ← getCell matrix (i - 1) (j - 1);
    l ← getCell matrix i (j - 1);
    u ← getCell matrix (i - 1) j;
    setCell matrix i j (Nat.min (d + 1) (Nat.min (l + 1) (u + 1))).

Definition levenshtein (a b : str) : option nat :=
  m1 ← forLoop 0 (S (length b)) (fun i m => Some (<[i := {[0 := i]}]> m)) ∅;
  m2 ← forLoop 0 (S (length a)) (fun j m => setCell m 0 j j) m1;
  m3 ← forLoop 1 (length b)
         (fun i m => forLoop 1 (length a) (fun j m' => levenshteinCell a b i m' j) m)
         m2;
  getCell m3 (length b) (length a).

(** ** Similarity *)

Definition calculateSimilarity (str1 str2 : str) : option Q :=
  let len := Nat.max (length str1) (length str2) in
  if bool_decide (len = 0) then Some 100%Q
  else
    distance ← levenshtein str1 str2;
    Some (((inject_Z (Z.of_nat len) - inject_Z (Z.of_nat distance))
           / inject_Z (Z.of_nat len)) * 100)%Q.

(** The last line of [calculateSimilarity] as JavaScript evaluates it, in
    IEEE 754 double precision, for a greater length [len] and a distance
    [distance]; and the comparison of [handleCheck] with the threshold.  The
    results below are stated on the exact rational [calculateSimilarity]
    returns here; [double_test_agrees] relates the two. *)
Definition toDouble (n : nat) : float :=
  PrimFloat.of_uint63 (Uint63.of_Z (Z.of_nat n)).

Definition similarityDouble (len distance : nat) : float :=
  ((toDouble len - toDouble distance) / toDouble len * 100)%float.

Definition reachesDouble (threshold : nat) (len distance : nat) : bool :=
  PrimFloat.leb (toDouble threshold) (similarityDouble len distance).

(** ** Pronunciation feedback *)

(** The [normalize] arrow function, written out identically in
    [getPronunciationFeedback] and in [handleCheck]. *)
Definition normalize (x : str) : str :=
  trim (stripPunctuation (toLowerCase x)).

(** The seven sentences [getPronunciationFeedback] can return, in the order
    of its [return] statements.
    - [NothingHeard]: "(Nothing heard. Please try again.)"
    - [Perfect]: "(Perfect pronunciation!)"
    - [NotClear w]: "('w' was not clear.)"
    - [LengthMismatch]: "(Sentence length doesn't match.)"
    - [SlightlyOff w]: "(Pronunciation of 'w' was slightly off.)"
    - [SaidInstead y x]: "(You said 'y' instead of 'x')"
    - [PronounceClearly]: "(Try to pronounce more clearly.)" *)
Inductive Message : Type :=
  | NothingHeard
  | Perfect
  | NotClear (missing : str)
  | LengthMismatch
  | SlightlyOff (targetWord : str)
  | SaidInstead (spokenWord targetWord : str)
  | PronounceClearly.

(** The loop over [i < Math.min(targetWords.length, spokenWords.length)]
    with its two [return]s, followed by the final [return] of the function.
    [i] is the loop counter and [n] the number of iterations left. *)
Fixpoint compareWords (targetWords spokenWords : list str) (i n : nat)
  : option Message :=
  match n with
  | 0 => Some PronounceClearly
  | S n' =>
      if bool_decide (targetWords !! i = spokenWords !! i)
      then compareWords targetWords spokenWords (S i) n'
      else
        x ← targetWords !! i;
        y ← spokenWords !! i;
        dist ← levenshtein x y;
        if dist <=? 2 then Some (SlightlyOff x) else Some (SaidInstead y x)
  end.

Definition getPronunciationFeedback (targetText : str) (spokenText : option str)
  : option Message :=
  match spokenText with
  | None | Some [] => Some NothingHeard
  | Some spokenText =>
      let target := normalize targetText in
      let spoken := normalize spokenText in
      if bool_decide (target = spoken) then Some Perfect
      else
        let targetWords := splitWhiteSpace target in
        let spokenWords := splitWhiteSpace spoken in
        match List.find (fun w => negb (bool_decide (w ∈ spokenWords))) targetWords with
        | Some (c :: w) => Some (NotClear (c :: w))
        | _ =>
            if (2 <? Z.abs (Z.of_nat (length targetWords)
                            - Z.of_nat (length spokenWords)))%Z
            then Some LengthMismatch
            else compareWords targetWords spokenWords 0
                   (Nat.min (length targetWords) (length spokenWords))
        end
  end.

(** ** Lessons and the state of the runner *)

Inductive QuestionType : Type :=
  | TranslateToEnglish
  | TranslateToBengali
  | FillBlank
  | Pronunciation
  | WordBuilder.

(** The interface [Question]; its field [id] is [qid] here, [id] being the
    identity function. *)
Record Question : Type := {
  qid : str;
  type : QuestionType;
  questionText : str;
  options : list str;
  correctAnswer : str;
  explanation : str
}.

Record LessonData : Type := {
  topic : str;
  title : str;
  questions : list Question
}.

Inductive Sensitivity : Type := Easy | Medium | Hard.

Inductive Status : Type := idle | correct | incorrect.

(** The [useState] cells that [handleCheck] and the footer read or write;
    the cells of the recorder, of the settings menu and of the dictionary
    pop-up play no part in them. *)
Record State : Type := {
  lesson : option LessonData;
  currentIndex : nat;
  selectedOption : option str;
  builtWordIndices : list nat;
  spokenText : option str;
  status : Status;
  score : nat;
  sensitivity : Sensitivity;
  feedback : option Message
}.

(** What [handleCheck] does outside the component state: the [reduceHearts]
    callback of the parent, and the two sounds. *)
Inductive Effect : Type :=
  | ReduceHearts
  | PlayPop
  | PlayClick.

#[global] Instance QuestionType_eq_dec : EqDecision QuestionType.
Proof. solve_decision. Defined.
#[global] Instance Sensitivity_eq_dec : EqDecision Sensitivity.
Proof. solve_decision. Defined.
#[global] Instance Status_eq_dec : EqDecision Status.
Proof. solve_decision. Defined.

Definition setSelectedOption (v : option str) (st : State) : State :=
  {| lesson := lesson st; currentIndex := currentIndex st;
     selectedOption := v; builtWordIndices := builtWordIndices st;
     spokenText := spokenText st; status := status st; score := score st;
     sensitivity := sensitivity st; feedback := feedback st |}.

Definition setStatus (v : Status) (st : State) : State :=
  {| lesson := lesson st; currentIndex := currentIndex st;
     selectedOption := selectedOption st;
     builtWordIndices := builtWordIndices st;
     spokenText := spokenText st; status := v; score := score st;
     sensitivity := sensitivity st; feedback := feedback st |}.

Definition setScore (f : nat → nat) (st : State) : State :=
  {| lesson := lesson st; currentIndex := currentIndex st;
     selectedOption := selectedOption st;
     builtWordIndices := builtWordIndices st;
     spokenText := spokenText st; status := status st; score := f (score st);
     sensitivity := sensitivity st; feedback := feedback st |}.

Definition setFeedback (v : option Message) (st : State) : State :=
  {| lesson := lesson st; currentIndex := currentIndex st;
     selectedOption := selectedOption st;
     builtWordIndices := builtWordIndices st;
     spokenText := spokenText st; status := status st; score := score st;
     sensitivity := sensitivity st; feedback := v |}.

Definition setSpokenText (v : option str) (st : State) : State :=
  {| lesson := lesson st; currentIndex := currentIndex st;
     selectedOption := selectedOption st;
     builtWordIndices := builtWordIndices st;
     spokenText := v; status := status st; score := score st;
     sensitivity := sensitivity st; feedback := feedback st |}.

Definition setBuiltWordIndices (f : list nat → list nat) (st : State) : State :=
  {| lesson := lesson st; currentIndex := currentIndex st;
     selectedOption := selectedOption st;
     builtWordIndices := f (builtWordIndices st);
     spokenText := spokenText st; status := status st; score := score st;
     sensitivity := sensitivity st; feedback := feedback st |}.

Definition setSensitivity (v : Sensitivity) (st : State) : State :=
  {| lesson := lesson st; currentIndex := currentIndex st;
     selectedOption := selectedOption st;
     builtWordIndices := builtWordIndices st;
     spokenText := spokenText st; status := status st; score := score st;
     sensitivity := v; feedback := feedback st |}.

(** [recognition.onresult] in [startListening]: the transcript becomes both
    the spoken text and the selected option. *)
Definition onresult (transcript : str) (st : State) : State :=
  setSelectedOption (Some transcript) (setSpokenText (Some transcript) st).

(** The threshold of [handleCheck]: 80 unless the sensitivity is ['Easy']
    or ['Hard']. *)
Definition threshold (sens : Sensitivity) : Q :=
  match sens with
  | Easy => 50
  | Medium => 80
  | Hard => 95
  end.

(** The end of [handleCheck], common to the three branches: the status, and
    the score and sound or the lost heart. *)
Definition conclude (isCorrect : bool) (st : State) : State * list Effect :=
  if isCorrect
  then (setScore (fun sc => sc + 10) (setStatus correct st), [PlayPop])
  else (setStatus incorrect st, [ReduceHearts; PlayClick]).

(** [handleCheck], on the state captured by the render.  A bare [return]
    leaves the state as it is and has no effect. *)
Definition handleCheck (st : State) : option (State * list Effect) :=
  match lesson st with
  | None => Some (st, [])
  | Some lesson =>
      currentQ ← questions lesson !! currentIndex st;
      match type currentQ with
      | Pronunciation =>
          if negb (truthy (spokenText st)) && negb (truthy (selectedOption st))
          then Some (st, [])
          else
            let target := normalize (correctAnswer currentQ) in
            let input := normalize (default [] (spokenText st)) in
            similarity ← calculateSimilarity target input;
            let simpleMatch :=
              bool_decide (input = target)
              || (bool_decide (sensitivity st = Easy)
                  && (includes input target || includes target input)) in
            let isCorrect :=
              simpleMatch || Qle_bool (threshold (sensitivity st)) similarity in
            fb ← getPronunciationFeedback (correctAnswer currentQ) (spokenText st);
            Some (conclude isCorrect (setFeedback (Some fb) st))
      | WordBuilder =>
          let formedWord :=
            concat (map (fun i => default [] (options currentQ !! i))
                        (builtWordIndices st)) in
          let isCorrect := bool_decide (formedWord = correctAnswer currentQ) in
          Some (conclude isCorrect
                  (setSelectedOption (Some formedWord) (setFeedback None st)))
      | _ =>
          if negb (truthy (selectedOption st)) then Some (st, [])
          else
            let isCorrect :=
              bool_decide (selectedOption st = Some (correctAnswer currentQ)) in
            Some (conclude isCorrect (setFeedback None st))
      end
  end.

(** [handleTileClick]: a tile of the answer area goes back to the pool, a
    tile of the pool is appended unless it is already placed. *)
Definition handleTileClick (index : nat) (isSelectedArea : bool) (st : State)
  : State :=
  if negb (bool_decide (status st = idle)) then st
  else if isSelectedArea
  then setBuiltWordIndices (filter (fun i => i ≠ index)) st
  else if negb (bool_decide (index ∈ builtWordIndices st))
  then setBuiltWordIndices (fun prev => prev ++ [index]) st
  else st.

(** The [onClick] of an answer button of the choice grid. *)
Definition clickOption (choice : str) (st : State) : State :=
  if bool_decide (status st = idle) then setSelectedOption (Some choice) st
  else st.

(** ** What the footer renders *)

(** The text under the verdict: [feedback] for a pronunciation question,
    [currentQ.explanation] otherwise. *)
Inductive FeedbackText : Type :=
  | FeedbackMessage (m : option Message)
  | Explanation (e : str).

Definition feedbackText (currentQ : Question) (st : State) : FeedbackText :=
  if bool_decide (type currentQ = Pronunciation)
  then FeedbackMessage (feedback st)
  else Explanation (explanation currentQ).

(** The footer: the Check button while [status] is ['idle'], otherwise the
    verdict ("Correct!" or "Incorrect") with the text under it. *)
Definition verdict (st : State) : option (bool * FeedbackText) :=
  match lesson st with
  | None => None
  | Some lesson =>
      currentQ ← questions lesson !! currentIndex st;
      match status st with
      | idle => None
      | correct => Some (true, feedbackText currentQ st)
      | incorrect => Some (false, feedbackText currentQ st)
      end
  end.

(** ** Reference notions the statements refer to *)

(** Edit scripts between two strings, with their cost: a unit of the two
    strings is kept, or one unit is substituted, deleted or inserted, each
    at cost one. *)
Inductive edits : str → str → nat → Prop :=
  | edits_nil : edits [] [] 0
  | edits_keep c u v n : edits u v n → edits (c :: u) (c :: v) n
  | edits_substitute c d u v n : edits u v n → edits (c :: u) (d :: v) (S n)
  | edits_delete c u v n : edits u v n → edits (c :: u) v (S n)
  | edits_insert d u v n : edits u v n → edits u (d :: v) (S n).

(** [d] is the Levenshtein distance of [a] and [b]: the least cost of an
    edit script from [a] to [b]. *)
Definition isEditDistance (a b : str) (d : nat) : Prop :=
  edits a b d ∧ ∀ n, edits a b n → d ≤ n.

(** The recurrence the matrix cells obey, on strings read from their last
    unit backwards. *)
Fixpoint lev (u v : str) : nat :=
  match u with
  | [] => length v
  | x :: u' =>
      (fix inner (v : str) : nat :=
         match v with
         | [] => length u
         | y :: v' =>
             if bool_decide (x = y) then lev u' v'
             else S (Nat.min (lev u' v') (Nat.min (lev u' v) (inner v')))
         end) v
  end.

(** [t] occurs in [u] as a contiguous run of units. *)
Definition isSubstring (t u : str) : Prop :=
  ∃ pre post, u = pre ++ t ++ post.

(** The punctuation the specification lists:
    . , / # ! $ % ^ & * ; : { } = - _ ` ~ ( ) *)
Definition punctuationSet : str :=
  list_ascii_of_string ".,/#!$%^&*;:{}=-_`~()".

(** [w] is the first word of [targetWords], in their order, that is not
    among [spokenWords]. *)
Definition firstAbsent (targetWords spokenWords : list str) (w : str) : Prop :=
  ∃ pre post, targetWords = pre ++ w :: post
              ∧ (w ∉ spokenWords)
              ∧ (∀ x, x ∈ pre → x ∈ spokenWords).

Definition allPresent (targetWords spokenWords : list str) : Prop :=
  ∀ w, w ∈ targetWords → w ∈ spokenWords.

(** The two word counts differ by more than 2. *)
Definition countsFarApart (targetWords spokenWords : list str) : Prop :=
  (2 < Z.abs (Z.of_nat (length targetWords) - Z.of_nat (length spokenWords)))%Z.

(** [i] is the first position, within the shorter sequence, at which the two
    sequences hold different words, [x] and [y]. *)
Definition firstDifference (targetWords spokenWords : list str)
    (i : nat) (x y : str) : Prop :=
  targetWords !! i = Some x ∧ spokenWords !! i = Some y ∧ x ≠ y
  ∧ ∀ k, k < i → targetWords !! k = spokenWords !! k.

Definition noDifference (targetWords spokenWords : list str) : Prop :=
  ∀ i x y, targetWords !! i = Some x → spokenWords !! i = Some y → x = y.

(** The feedback the specification prescribes for the words of the
    normalized target and of the normalized transcript: the first
    applicable rule, in this order. *)
Inductive feedbackRule (targetWords spokenWords : list str) : Message → Prop :=
  | rule_missing w :
      firstAbsent targetWords spokenWords w →
      feedbackRule targetWords spokenWords (NotClear w)
  | rule_length :
      allPresent targetWords spokenWords →
      countsFarApart targetWords spokenWords →
      feedbackRule targetWords spokenWords LengthMismatch
  | rule_slightly_off i x y d :
      allPresent targetWords spokenWords →
      ¬ countsFarApart targetWords spokenWords →
      firstDifference targetWords spokenWords i x y →
      isEditDistance x y d → d ≤ 2 →
      feedbackRule targetWords spokenWords (SlightlyOff x)
  | rule_said_instead i x y d :
      allPresent targetWords spokenWords →
      ¬ countsFarApart targetWords spokenWords →
      firstDifference targetWords spokenWords i x y →
      isEditDistance x y d → 2 < d →
      feedbackRule targetWords spokenWords (SaidInstead y x)
  | rule_clearly :
      allPresent targetWords spokenWords →
      ¬ countsFarApart targetWords spokenWords →
      noDifference targetWords spokenWords →
      feedbackRule targetWords spokenWords PronounceClearly.

(** The score the specification gives for distance [d] and greater length
    [L]: ((L - d) / L) x 100. *)
Definition percentage (L d : nat) : Q :=
  ((inject_Z (Z.of_nat L) - inject_Z (Z.of_nat d)) / inject_Z (Z.of_nat L)
   * 100)%Q.

(** String literals as lists of code units. *)
Definition lit (x : string) : str := list_ascii_of_string x.

(** ** Sample lessons *)

(** The state of a freshly mounted runner whose lesson has arrived and holds
    the single question [q]: every [useState] cell at its initial value. *)
Definition startLesson (q : Question) : State :=
  {| lesson := Some {| topic := lit "greetings"; title := []; questions := [q] |};
     currentIndex := 0; selectedOption := None; builtWordIndices := [];
     spokenText := None; status := idle; score := 0; sensitivity := Medium;
     feedback := None |}.

Definition pronunciationQuestion (target : str) : Question :=
  {| qid := lit "q1"; type := Pronunciation; questionText := target;
     options := [target]; correctAnswer := target;
     explanation := lit "explanation" |}.

Definition helpfulQuestion : Question :=
  {| qid := lit "q4"; type := WordBuilder; questionText := lit "Helpful";
     options := map lit ["H"; "E"; "L"; "P"; "F"; "U"; "L"]%string;
     correctAnswer := lit "HELPFUL"; explanation := lit "help + ful" |}.

Definition blankQuestion : Question :=
  {| qid := lit "q2"; type := FillBlank; questionText := lit "I ___ happy";
     options := map lit ["am"; "is"; "are"; "Am"]%string;
     correctAnswer := lit "am"; explanation := lit "I takes am" |}.

(** "good morning" read as "good morning everyone", at each sensitivity. *)
Definition greetingEveryone (sens : Sensitivity) : State :=
  setSensitivity sens
    (onresult (lit "good morning everyone")
       (startLesson (pronunciationQuestion (lit "good morning")))).

(** "I am happy" read as "I am happy!". *)
Definition happyExclaimed : State :=
  onresult (lit "I am happy!") (startLesson (pronunciationQuestion (lit "I am happy"))).

(** "I am very happy today" read without "very". *)
Definition happyWithoutVery : State :=
  onresult (lit "I am happy today")
    (startLesson (pronunciationQuestion (lit "I am very happy today"))).

(** The Check button pressed on "hello" before anything was heard. *)
Definition nothingHeardYet (sens : Sensitivity) : State :=
  setSensitivity sens (startLesson (pronunciationQuestion (lit "hello"))).

(** A transcript made of punctuation only, against "hello". *)
Definition onlyPunctuation (sens : Sensitivity) : State :=
  setSensitivity sens
    (onresult (lit "... !") (startLesson (pronunciationQuestion (lit "hello")))).

(** The learner taps the pool tiles [indices] one after the other. *)
Definition tapTiles (indices : list nat) (st : State) : State :=
  foldl (fun st' i => handleTileClick i false st') st indices.

(** The tiles of "HELPFUL" tapped in order, and with the P first. *)
Definition helpfulInOrder : State :=
  tapTiles [0; 1; 2; 3; 4; 5; 6] (startLesson helpfulQuestion).

Definition helpfulScrambled : State :=
  tapTiles [3; 0; 1; 2; 4; 5; 6] (startLesson helpfulQuestion).

(** The answer "am" of the fill-in question, chosen exactly and chosen in
    its capitalized variant. *)
Definition blankExact : State := clickOption (lit "am") (startLesson blankQuestion).

Definition blankCapitalized : State :=
  clickOption (lit "Am") (startLesson blankQuestion).

(** ** The rest of the runner *)

Definition setCurrentIndex (f : nat → nat) (st : State) : State :=
  {| lesson := lesson st; currentIndex := f (currentIndex st);
     selectedOption := selectedOption st;
     builtWordIndices := builtWordIndices st;
     spokenText := spokenText st; status := status st; score := score st;
     sensitivity := sensitivity st; feedback := feedback st |}.

(** The cells of [State] together with the two end-of-lesson flags. *)
Record Runner : Type := {
  cells : State;
  isLessonComplete : bool;
  isGameOver : bool
}.

(** [handleNext], given the [hearts] prop: game over without hearts,
    otherwise the next question with a fresh submission, or the end of the
    lesson after the last question. *)
Definition handleNext (hearts : Z) (r : Runner) : Runner :=
  if bool_decide (hearts = 0%Z)
  then {| cells := cells r; isLessonComplete := isLessonComplete r;
          isGameOver := true |}
  else
    match lesson (cells r) with
    | None => r
    | Some data =>
        if (Z.of_nat (currentIndex (cells r))
            <? Z.of_nat (length (questions data)) - 1)%Z
        then
          {| cells :=
               setFeedback None
                 (setStatus idle
                    (setBuiltWordIndices (fun _ => [])
                       (setSpokenText None
                          (setSelectedOption None
                             (setCurrentIndex (fun prev => prev + 1) (cells r))))));
             isLessonComplete := isLessonComplete r;
             isGameOver := isGameOver r |}
        else
          {| cells := cells r; isLessonComplete := true;
             isGameOver := isGameOver r |}
    end.

(** The amount the lesson-complete screen shows as "Total XP" and passes to
    [onComplete]: [score + (status === 'correct' ? 10 : 0)]. *)
Definition completionScore (st : State) : nat :=
  score st + (if bool_decide (status st = correct) then 10 else 0).

(** A lesson of two questions, the first one answered. *)
Definition twoQuestions : Runner :=
  {| cells :=
       {| lesson := Some {| topic := lit "greetings"; title := [];
                            questions := [blankQuestion; helpfulQuestion] |};
          currentIndex := 0; selectedOption := Some (lit "am");
          builtWordIndices := []; spokenText := None; status := correct;
          score := 10; sensitivity := Hard; feedback := None |};
     isLessonComplete := false; isGameOver := false |}.

(** [/^[a-zA-Z\s'-]+$/], unit by unit. *)
Definition isLookupUnit (c : ascii) : bool :=
  let n := nat_of_ascii c in
  ((97 <=? n) && (n <=? 122)) || ((65 <=? n) && (n <=? 90))
  || isWhiteSpace c || (n =? 39) || (n =? 45).

(** [handleWordClick], up to the lookup: the word handed to [lookupWord]
    and stored as [selectedWord], or [None] when the handler returns
    first. *)
Definition handleWordClick (word : str) : option str :=
  let cleanWord := stripPunctuation word in
  if bool_decide (cleanWord = []) || forallb isWhiteSpace cleanWord then None
  else if negb (forallb isLookupUnit cleanWord) then None
  else Some cleanWord.

(** [s.split(sep)] for a one-unit separator. *)
Fixpoint splitOn (sep : ascii) (s : str) : list str :=
  match s with
  | [] => [[]]
  | c :: s' =>
      if bool_decide (c = sep) then [] :: splitOn sep s'
      else
        match splitOn sep s' with
        | w :: ws => (c :: w) :: ws
        | [] => [[c]]
        end
  end.

(** [s.split(/(_+)/)]: the pieces between the maximal runs of underscores
    with, the group capturing, the runs themselves in between. *)
Fixpoint splitBlanks (s : str) : list str :=
  match s with
  | [] => [[]]
  | c :: s' =>
      if bool_decide (c = "_"%char) then
        match s' with
        | c' :: _ =>
            if bool_decide (c' = "_"%char) then
              match splitBlanks s' with
              | piece :: run :: rest => piece :: (c :: run) :: rest
              | other => other
              end
            else [] :: [c] :: splitBlanks s'
        | [] => [] :: [c] :: splitBlanks s'
        end
      else
        match splitBlanks s' with
        | piece :: rest => (c :: piece) :: rest
        | [] => [[c]]
        end
  end.

(** What [renderClickableSentence] lays out: for a fill-in question the
    parts of the text, each run of underscores replaced by the selected
    option (or by a placeholder when none is selected); otherwise the lines
    of the text, each a sequence of clickable words, every word followed by
    a space. *)
Inductive Span : Type :=
  | BlankSpan (shown : option str)
  | TextSpan (part : str).

Inductive Sentence : Type :=
  | BlankSentence (parts : list Span)
  | ClickableSentence (lines : list (list str)).

Definition renderClickableSentence (text : str) (ty : QuestionType)
    (selected : option str) : Sentence :=
  if bool_decide (ty = FillBlank) then
    BlankSentence
      (map (fun part =>
              if startsWith part ["_"%char]
              then BlankSpan (if truthy selected then selected else None)
              else TextSpan part)
           (splitBlanks text))
  else
    ClickableSentence (map (splitOn " "%char) (splitOn "010"%char text)).

(** [l.join(sep)]. *)
Fixpoint joinWith (sep : str) (l : list str) : str :=
  match l with
  | [] => []
  | [w] => w
  | w :: ws => w ++ sep ++ joinWith sep ws
  end.

(** The pieces [splitBlanks] must give: a piece without underscore, then as
    often as needed a run of underscores and a piece without underscore. *)
Inductive blankPieces : list str → Prop :=
  | blankPieces_last piece :
      "_"%char ∉ piece → blankPieces [piece]
  | blankPieces_more piece run rest :
      "_"%char ∉ piece → run ≠ [] → Forall (fun c => c = "_"%char) run →
      blankPieces rest → blankPieces (piece :: run :: rest).

(** An unaccented Latin letter. *)
Definition isAsciiLetter (c : ascii) : bool :=
  let n := nat_of_ascii c in
  ((97 <=? n) && (n <=? 122)) || ((65 <=? n) && (n <=? 90)).

(** ** The application shell (App.tsx) *)

Module App.

Inductive Difficulty : Type := Beginner | Intermediate | Advanced.

(** The string value of each member of the enum. *)
Definition difficultyName (d : Difficulty) : str :=
  match d with
  | Beginner => lit "Beginner"
  | Intermediate => lit "Intermediate"
  | Advanced => lit "Advanced"
  end.

Record UserState : Type := {
  username : str;
  xp : Z;
  hearts : Z;
  level : Difficulty;
  completedLessons : list str;
  streak : Z;
  lastLessonDate : option str;
  avatar : option str;
  themeColor : option str
}.

Inductive View : Type :=
  | ViewDashboard
  | ViewLesson
  | ViewDictionary
  | ViewTranslator
  | ViewAccount.

Record AppState : Type := {
  userState : UserState;
  view : View;
  currentTopic : option str
}.

Definition setUserState (f : UserState → UserState) (app : AppState) : AppState :=
  {| userState := f (userState app); view := view app;
     currentTopic := currentTopic app |}.

Definition setView (v : View) (app : AppState) : AppState :=
  {| userState := userState app; view := v; currentTopic := currentTopic app |}.

Definition setCurrentTopic (v : option str) (app : AppState) : AppState :=
  {| userState := userState app; view := view app; currentTopic := v |}.

Definition withHearts (h : Z) (p : UserState) : UserState :=
  {| username := username p; xp := xp p; hearts := h; level := level p;
     completedLessons := completedLessons p; streak := streak p;
     lastLessonDate := lastLessonDate p; avatar := avatar p;
     themeColor := themeColor p |}.

(** The state a new learner starts with, and [handleResetProgress] returns
    to. *)
Definition initialUserState : UserState :=
  {| username := lit "Student"; xp := 0; hearts := 5; level := Beginner;
     completedLessons := []; streak := 0; lastLessonDate := None;
     avatar := None; themeColor := None |}.

(** [startLesson]: without hearts the hearts are refilled and the dashboard
    stays; otherwise the lesson view opens on the topic. *)
Definition startLesson (level : Difficulty) (topic : str) (app : AppState)
  : AppState :=
  if (hearts (userState app) <=? 0)%Z
  then setUserState (withHearts 5) app
  else setView ViewLesson (setCurrentTopic (Some topic) app).


(** [[...new Set(l)]]: the members of [l] in the order of their first
    occurrence; [seen] holds the members met so far. *)
Fixpoint uniqueFrom (seen : list str) (l : list str) : list str :=
  match l with
  | [] => []
  | x :: l' =>
      if bool_decide (x ∈ seen) then uniqueFrom seen l'
      else x :: uniqueFrom (x :: seen) l'
  end.

Definition lessonKey (d : Difficulty) (topic : str) : str :=
  difficultyName d ++ lit "-" ++ topic.

(** [handleLessonComplete].  [today] and [yesterday] are the two strings the
    handler reads off the clock ([toDateString] of the current date and of
    the date one day before). *)
Definition handleLessonComplete (today yesterday : str) (scoreToAdd : Z)
    (app : AppState) : AppState :=
  setCurrentTopic None
    (setView ViewDashboard
       (setUserState
          (fun prev =>
             let newStreak :=
               if bool_decide (lastLessonDate prev = Some today) then streak prev
               else if bool_decide (lastLessonDate prev = Some yesterday)
               then (streak prev + 1)%Z
               else 1%Z in
             {| username := username prev;
                xp := (xp prev + scoreToAdd)%Z;
                hearts := hearts prev;
                level := level prev;
                completedLessons :=
                  match currentTopic app with
                  | Some (c :: topic) =>
                      uniqueFrom []
                        (completedLessons prev
                         ++ [lessonKey (level prev) (c :: topic)])
                  | _ => completedLessons prev
                  end;
                streak := newStreak;
                lastLessonDate := Some today;
                avatar := avatar prev;
                themeColor := themeColor prev |})
          app)).



End App.

(** ** The road map (Dashboard) *)

Module Dashboard.

(** [arr.findIndex(p)], [None] standing for -1. *)
Fixpoint findIndex {A : Type} (p : A → bool) (l : list A) : option nat :=
  match l with
  | [] => None
  | x :: l' => if p x then Some 0 else S <$> findIndex p l'
  end.

(** [userState.completedLessons.includes(`${userState.level}-${t.id}`)];
    a topic is given by its [id]. *)
Definition isCompleted (u : App.UserState) (topicId : str) : bool :=
  bool_decide (App.lessonKey (App.level u) topicId ∈ App.completedLessons u).

(** The index of the node that carries the avatar: the first topic not yet
    completed, or the number of topics when all are. *)
Definition currentLessonIndex (u : App.UserState) (currentTopics : list str)
  : nat :=
  match findIndex (fun t => negb (isCompleted u t)) currentTopics with
  | Some i => i
  | None => length currentTopics
  end.

(** [isLocked] of the node at [index]; [None] where the code would read the
    [id] of a topic that does not exist. *)
Definition isLocked (u : App.UserState) (currentTopics : list str) (index : nat)
  : option bool :=
  if negb (0 <? index) then Some false
  else previous ← currentTopics !! (index - 1);
       Some (negb (isCompleted u previous)).

End Dashboard.

(** ** The dictionary's search history and the translator's switch *)

Module Dictionary.

(** The list [saveHistory] stores: the word first, the earlier entries
    without it, five entries at most. *)
Definition saveHistory (word : str) (history : list str) : list str :=
  take 5 (word :: filter (fun w => w ≠ word) history).

End Dictionary.

Module Translator.

Inductive Direction : Type := BnEn | EnBn.

Record TranslatorState : Type := {
  inputText : str;
  outputText : str;
  direction : Direction;
  loading : bool
}.

Definition handleSwitch (st : TranslatorState) : TranslatorState :=
  {| inputText := outputText st; outputText := inputText st;
     direction := match direction st with BnEn => EnBn | EnBn => BnEn end;
     loading := loading st |}.

(** The language [handleSpeak] gives the utterance of the output text. *)
Definition speechLang (st : TranslatorState) : str :=
  match direction st with
  | BnEn => lit "en-US"
  | EnBn => lit "bn-IN"
  end.

End Translator.

(** * Results *)

(** ** Edit scripts and the recurrence *)

Lemma lev_nil_r u : lev u [] = length u.
Proof. by destruct u. Qed.

Lemma lev_cons x y u v :
  lev (x :: u) (y :: v) =
  if bool_decide (x = y) then lev u v
  else S (Nat.min (lev u v) (Nat.min (lev u (y :: v)) (lev (x :: u) v))).
Proof. reflexivity. Qed.

Lemma lev_sym u v : lev u v = lev v u.
Proof.
  revert v. induction u as [|x u IHu]; intros v.
  - by rewrite lev_nil_r.
  - induction v as [|y v IHv]; [done|].
    rewrite !lev_cons, IHv, (IHu v), (IHu (y :: v)).
    do 2 case_bool_decide; subst; try done. lia.
Qed.

Lemma lev_refl u : lev u u = 0.
Proof.
  induction u as [|x u IHu]; [done|].
  by rewrite lev_cons, bool_decide_eq_true_2.
Qed.

(** One more unit on either side moves the value by at most one. *)
Lemma lev_step n :
  ∀ u v c, length u + length v ≤ n →
    lev (c :: u) v ≤ S (lev u v) ∧ lev u v ≤ S (lev u (c :: v)).
Proof.
  induction n as [|n IHn]; intros u v c Hn.
  - destruct u, v; simpl in *; lia.
  - split.
    + destruct v as [|y v]; [rewrite !lev_nil_r; simpl; lia|].
      rewrite lev_cons. case_bool_decide as Hc; [|lia].
      subst y. apply IHn. simpl in Hn. lia.
    + destruct u as [|x u]; [simpl; lia|].
      rewrite (lev_cons x c u v).
      destruct (IHn u v x) as [HA _]; [simpl in Hn; lia|].
      destruct (IHn u v c) as [_ HD]; [simpl in Hn; lia|].
      case_bool_decide; lia.
Qed.

Lemma lev_cons_l c u v : lev (c :: u) v ≤ S (lev u v).
Proof. by apply (lev_step (length u + length v)). Qed.

Lemma lev_cons_r d u v : lev u (d :: v) ≤ S (lev u v).
Proof. rewrite (lev_sym u (d :: v)), (lev_sym u v). apply lev_cons_l. Qed.

Lemma edits_nil_l v : edits [] v (length v).
Proof. induction v; simpl; by constructor. Qed.

Lemma edits_nil_r u : edits u [] (length u).
Proof. induction u; simpl; by constructor. Qed.

Lemma lev_edits u v : edits u v (lev u v).
Proof.
  revert v. induction u as [|x u IHu]; intros v; [apply edits_nil_l|].
  induction v as [|y v IHv]; [apply (edits_nil_r (x :: u))|].
  rewrite lev_cons. case_bool_decide as Hxy.
  - subst y. by constructor.
  - destruct (Nat.min_spec (lev u v) (Nat.min (lev u (y :: v)) (lev (x :: u) v)))
      as [[_ ->]|[_ ->]]; [by constructor|].
    destruct (Nat.min_spec (lev u (y :: v)) (lev (x :: u) v))
      as [[_ ->]|[_ ->]]; by constructor.
Qed.

Lemma lev_least u v n : edits u v n → lev u v ≤ n.
Proof.
  induction 1 as [|c u v n _ IH|c d u v n _ IH|c u v n _ IH|d u v n _ IH].
  - done.
  - by rewrite lev_cons, bool_decide_eq_true_2.
  - rewrite lev_cons. case_bool_decide; lia.
  - pose proof (lev_cons_l c u v). lia.
  - pose proof (lev_cons_r d u v). lia.
Qed.

Lemma lev_isEditDistance u v : isEditDistance u v (lev u v).
Proof. split; [apply lev_edits | apply lev_least]. Qed.

Lemma isEditDistance_unique a b d d' :
  isEditDistance a b d → isEditDistance a b d' → d = d'.
Proof.
  intros [He Hl] [He' Hl']. apply Nat.le_antisymm; [by apply Hl | by apply Hl'].
Qed.

Lemma edits_sym u v n : edits u v n → edits v u n.
Proof. induction 1; by constructor. Qed.

Lemma edits_snoc_keep c u v n : edits u v n → edits (u ++ [c]) (v ++ [c]) n.
Proof. induction 1; simpl; repeat constructor; done. Qed.

Lemma edits_snoc_substitute c d u v n :
  edits u v n → edits (u ++ [c]) (v ++ [d]) (S n).
Proof. induction 1; simpl; repeat constructor; done. Qed.

Lemma edits_snoc_delete c u v n : edits u v n → edits (u ++ [c]) v (S n).
Proof. induction 1; simpl; repeat constructor; done. Qed.

Lemma edits_snoc_insert d u v n : edits u v n → edits u (v ++ [d]) (S n).
Proof. induction 1; simpl; repeat constructor; done. Qed.

Lemma edits_rev u v n : edits u v n → edits (rev u) (rev v) n.
Proof.
  induction 1; simpl.
  - constructor.
  - by apply edits_snoc_keep.
  - by apply edits_snoc_substitute.
  - by apply edits_snoc_delete.
  - by apply edits_snoc_insert.
Qed.

Lemma lev_rev_isEditDistance a b : isEditDistance a b (lev (rev a) (rev b)).
Proof.
  split.
  - rewrite <- (rev_involutive a), <- (rev_involutive b) at 1.
    apply edits_rev, lev_edits.
  - intros n Hn. by apply lev_least, edits_rev.
Qed.

Lemma isEditDistance_sym a b d : isEditDistance a b d → isEditDistance b a d.
Proof.
  intros [He Hl]. split; [by apply edits_sym|].
  intros n Hn. by apply Hl, edits_sym.
Qed.

Lemma lev_le_max u v : lev u v ≤ Nat.max (length u) (length v).
Proof.
  revert v. induction u as [|x u IHu]; intros v; [simpl; lia|].
  destruct v as [|y v]; [simpl; lia|].
  rewrite lev_cons. specialize (IHu v).
  case_bool_decide; simpl; lia.
Qed.

(** ** Loops and matrix cells *)

Lemma forLoop_invariant {St : Type} (P : nat → St → Prop) body n :
  ∀ lo st,
    P lo st →
    (∀ i st0, lo ≤ i < lo + n → P i st0 →
       ∃ st1, body i st0 = Some st1 ∧ P (S i) st1) →
    ∃ st', forLoop lo n body st = Some st' ∧ P (lo + n) st'.
Proof.
  induction n as [|n IHn]; intros lo st HP Hbody; simpl.
  - exists st. by rewrite Nat.add_0_r.
  - destruct (Hbody lo st) as (st1 & -> & HP1); [lia|done|]. simpl.
    destruct (IHn (S lo) st1 HP1) as (st' & Hrun & HP').
    + intros i st0 Hi. apply Hbody. lia.
    + exists st'. split; [done|]. by replace (lo + S n) with (S lo + n) by lia.
Qed.

Lemma setCell_spec (m : gmap nat (gmap nat nat)) i j v :
  is_Some (m !! i) →
  ∃ m', setCell m i j v = Some m'
        ∧ getCell m' i j = Some v
        ∧ (∀ i' j', (i' = i ∧ j' = j → False) → getCell m' i' j' = getCell m i' j')
        ∧ (∀ i', is_Some (m !! i') → is_Some (m' !! i')).
Proof.
  intros [row Hrow]. unfold setCell, getCell. rewrite Hrow. simpl.
  eexists. split; [done|]. split; [|split].
  - by rewrite lookup_insert_eq; simpl; rewrite lookup_insert_eq.
  - intros i' j' Hne. destruct (decide (i' = i)) as [->|Hi].
    + rewrite lookup_insert_eq, Hrow. simpl.
      apply lookup_insert_ne. intros ->. by apply Hne.
    + by rewrite lookup_insert_ne.
  - intros i' Hi'. destruct (decide (i' = i)) as [->|Hi].
    + by rewrite lookup_insert_eq.
    + by rewrite lookup_insert_ne.
Qed.

Section Matrix.
Variables a b : str.

(** The value cell [(i, j)] must hold: the recurrence on the first [j]
    units of [a] and the first [i] units of [b]. *)
Let cellValue (i j : nat) : nat := lev (rev (take j a)) (rev (take i b)).

(** The cells written so far when the loops reach cell [(i, j)]: the first
    row and column, the rows above [i], and row [i] up to column [j]. *)
Let filled (i j : nat) (m : gmap nat (gmap nat nat)) : Prop :=
  (∀ i', i' ≤ length b → is_Some (m !! i'))
  ∧ ∀ i' j', i' ≤ length b → j' ≤ length a →
      i' < i ∨ j' = 0 ∨ (i' = i ∧ j' < j) →
      getCell m i' j' = Some (cellValue i' j').

Lemma cellValue_row0 j : j ≤ length a → cellValue 0 j = j.
Proof.
  intros Hj. unfold cellValue. rewrite take_0. simpl.
  rewrite lev_nil_r, length_rev, length_take. lia.
Qed.

Lemma cellValue_col0 i : i ≤ length b → cellValue i 0 = i.
Proof.
  intros Hi. unfold cellValue. rewrite take_0. simpl.
  rewrite length_rev, length_take. lia.
Qed.

Lemma cellValue_step i j x y :
  a !! j = Some x → b !! i = Some y →
  cellValue (S i) (S j) =
  if bool_decide (x = y) then cellValue i j
  else S (Nat.min (cellValue i j)
                  (Nat.min (cellValue (S i) j) (cellValue i (S j)))).
Proof.
  intros Ha Hb. unfold cellValue.
  rewrite (take_S_r a j x Ha), (take_S_r b i y Hb), !rev_unit.
  apply lev_cons.
Qed.

Lemma levenshteinCell_filled i j m :
  1 ≤ i ≤ length b → 1 ≤ j ≤ length a → filled i j m →
  ∃ m', levenshteinCell a b i m j = Some m' ∧ filled i (S j) m'.
Proof.
  intros Hi Hj [Hrows Hcells].
  destruct (lookup_lt_is_Some_2 a (j - 1)) as [x Hx]; [lia|].
  destruct (lookup_lt_is_Some_2 b (i - 1)) as [y Hy]; [lia|].
  pose proof (cellValue_step (i - 1) (j - 1) x y Hx Hy) as Hstep.
  replace (S (i - 1)) with i in Hstep by lia.
  replace (S (j - 1)) with j in Hstep by lia.
  assert (Hd : getCell m (i - 1) (j - 1) = Some (cellValue (i - 1) (j - 1)))
    by (apply Hcells; lia).
  assert (Hl : getCell m i (j - 1) = Some (cellValue i (j - 1)))
    by (apply Hcells; lia).
  assert (Hu : getCell m (i - 1) j = Some (cellValue (i - 1) j))
    by (apply Hcells; lia).
  assert (Hwrite : ∀ v, v = cellValue i j →
            ∃ m', setCell m i j v = Some m' ∧ filled i (S j) m').
  { intros v ->.
    destruct (setCell_spec m i j (cellValue i j)) as (m' & Hset & Hnew & Hold & Hrows');
      [apply Hrows; lia|].
    exists m'. split; [done|]. split; [by intros i' Hi'; apply Hrows', Hrows|].
    intros i' j' Hi' Hj' Hpos.
    destruct (decide (i' = i ∧ j' = j)) as [[-> ->]|Hne]; [done|].
    rewrite Hold by tauto. apply Hcells; lia. }
  unfold levenshteinCell, charAt. rewrite Hx, Hy, Hd, Hl, Hu. simpl.
  destruct (decide (x = y)) as [Hxy|Hxy].
  - rewrite bool_decide_eq_true_2 in Hstep by done.
    rewrite bool_decide_eq_true_2 by congruence. by apply Hwrite.
  - rewrite bool_decide_eq_false_2 in Hstep by done.
    rewrite bool_decide_eq_false_2 by congruence. apply Hwrite. lia.
Qed.

Lemma levenshtein_rows :
  ∃ m : gmap nat (gmap nat nat),
    forLoop 0 (S (length b)) (fun i m => Some (<[i := {[0 := i]}]> m)) ∅
    = Some m
    ∧ ∀ i, i ≤ length b → m !! i = Some {[0 := i]}.
Proof.
  destruct (forLoop_invariant
              (fun k (m : gmap nat (gmap nat nat)) =>
                 ∀ i, i < k → m !! i = Some {[0 := i]})
              (fun i m => Some (<[i := {[0 := i]}]> m))
              (S (length b)) 0 ∅) as (m & Hrun & Hm).
  - intros i Hi. lia.
  - intros i m _ Hm. eexists. split; [done|].
    intros i' Hi'. destruct (decide (i' = i)) as [->|Hne].
    + by rewrite lookup_insert_eq.
    + rewrite lookup_insert_ne by done. apply Hm. lia.
  - exists m. split; [done|]. intros i Hi. apply Hm. lia.
Qed.

Lemma levenshtein_row0 (m1 : gmap nat (gmap nat nat)) :
  (∀ i, i ≤ length b → m1 !! i = Some {[0 := i]}) →
  ∃ m, forLoop 0 (S (length a)) (fun j m => setCell m 0 j j) m1 = Some m
       ∧ filled 1 1 m.
Proof.
  intros Hm1.
  destruct (forLoop_invariant
              (fun k (m : gmap nat (gmap nat nat)) =>
                 (∀ i, i ≤ length b → is_Some (m !! i))
                 ∧ (∀ j, j < k → getCell m 0 j = Some j)
                 ∧ (∀ i, 0 < i ≤ length b → getCell m i 0 = Some i))
              (fun j m => setCell m 0 j j)
              (S (length a)) 0 m1) as (m & Hrun & Hrows & Hrow0 & Hcol0).
  - split; [|split].
    + intros i Hi. by rewrite Hm1.
    + intros j Hj. lia.
    + intros i Hi. unfold getCell. rewrite Hm1 by lia. simpl.
      by rewrite lookup_singleton_eq.
  - intros j m _ (Hrows & Hrow0 & Hcol0).
    destruct (setCell_spec m 0 j j) as (m' & Hset & Hnew & Hold & Hrows');
      [apply Hrows; lia|].
    exists m'. split; [done|]. split; [|split].
    + intros i Hi. by apply Hrows', Hrows.
    + intros j' Hj'. destruct (decide (j' = j)) as [->|Hne]; [done|].
      rewrite Hold by lia. apply Hrow0. lia.
    + intros i Hi. rewrite Hold by lia. by apply Hcol0.
  - exists m. split; [done|]. split; [done|].
    intros i' j' Hi' Hj' Hpos.
    destruct (decide (i' = 0)) as [->|Hne].
    + rewrite cellValue_row0 by done. apply Hrow0. lia.
    + assert (j' = 0) as -> by lia.
      rewrite cellValue_col0 by done. apply Hcol0. lia.
Qed.

Lemma levenshtein_fill m2 :
  filled 1 1 m2 →
  ∃ m, forLoop 1 (length b)
         (fun i m => forLoop 1 (length a)
                       (fun j m' => levenshteinCell a b i m' j) m) m2
       = Some m
       ∧ filled (S (length b)) 1 m.
Proof.
  intros Hm2.
  destruct (forLoop_invariant (fun i m => filled i 1 m)
              (fun i m => forLoop 1 (length a)
                            (fun j m' => levenshteinCell a b i m' j) m)
              (length b) 1 m2 Hm2) as (m & Hrun & Hm).
  - intros i m Hi Hfilled.
    destruct (forLoop_invariant (fun j m' => filled i j m')
                (fun j m' => levenshteinCell a b i m' j)
                (length a) 1 m Hfilled) as (m' & Hrow & Hm').
    + intros j m0 Hj Hm0. apply levenshteinCell_filled; [lia|lia|done].
    + exists m'. split; [done|].
      destruct Hm' as [Hrows Hcells]. split; [done|].
      intros i' j' Hi' Hj' Hpos. apply Hcells; lia.
  - exists m. split; [done|]. by replace (S (length b)) with (1 + length b) by lia.
Qed.

Lemma levenshtein_lev : levenshtein a b = Some (lev (rev a) (rev b)).
Proof.
  unfold levenshtein.
  destruct levenshtein_rows as (m1 & -> & Hm1). cbn [mbind option_bind].
  destruct (levenshtein_row0 m1 Hm1) as (m2 & -> & Hm2). cbn [mbind option_bind].
  destruct (levenshtein_fill m2 Hm2) as (m3 & -> & [_ Hm3]). cbn [mbind option_bind].
  rewrite Hm3 by lia. unfold cellValue.
  by rewrite !firstn_all.
Qed.
End Matrix.

Theorem levenshtein_isEditDistance a b :
  ∃ d, levenshtein a b = Some d ∧ isEditDistance a b d.
Proof.
  exists (lev (rev a) (rev b)).
  split; [apply levenshtein_lev | apply lev_rev_isEditDistance].
Qed.

Lemma levenshtein_lev' a b : levenshtein a b = Some (lev a b).
Proof.
  rewrite levenshtein_lev. f_equal.
  eapply isEditDistance_unique;
    [apply lev_rev_isEditDistance | apply lev_isEditDistance].
Qed.

Lemma levenshtein_sym a b : levenshtein a b = levenshtein b a.
Proof. by rewrite !levenshtein_lev', lev_sym. Qed.

Lemma levenshtein_Some a b d : levenshtein a b = Some d ↔ isEditDistance a b d.
Proof.
  rewrite levenshtein_lev'. split.
  - intros [= <-]. apply lev_isEditDistance.
  - intros Hd. f_equal.
    eapply isEditDistance_unique; [apply lev_isEditDistance | done].
Qed.

(** ** Strings *)

Lemma startsWith_spec u t : startsWith u t = true ↔ ∃ post, u = t ++ post.
Proof.
  revert u. induction t as [|d t IHt]; intros u; simpl.
  - destruct u; split; eauto.
  - destruct u as [|c u]; simpl.
    + split; [done|]. by intros [post ?].
    + rewrite andb_true_iff, bool_decide_eq_true, IHt. split.
      * intros [-> [post ->]]. by exists post.
      * intros [post [= -> ->]]. eauto.
Qed.

Lemma includes_spec u t : includes u t = true ↔ isSubstring t u.
Proof.
  unfold isSubstring. induction u as [|c u IHu]; cbn [includes].
  - rewrite orb_false_r, startsWith_spec. split.
    + intros [post ->]. by exists [], post.
    + intros (pre & post & Heq). symmetry in Heq.
      apply app_eq_nil in Heq as [-> Heq]. exists post. by rewrite Heq.
  - rewrite orb_true_iff, startsWith_spec, IHu. split.
    + intros [[post ->]|(pre & post & ->)].
      * by exists [], post.
      * by exists (c :: pre), post.
    + intros ([|c' pre] & post & Heq); simpl in Heq.
      * left. by exists post.
      * right. injection Heq as -> ->. by exists pre, post.
Qed.

Lemma includes_nil u : includes u [] = true.
Proof. by destruct u. Qed.

Lemma trimStart_spec u :
  ∃ pre, u = pre ++ trimStart u
         ∧ Forall (fun c => isWhiteSpace c = true) pre
         ∧ (∀ c u', trimStart u = c :: u' → isWhiteSpace c = false).
Proof.
  induction u as [|c u (pre & Heq & Hpre & Hhead)]; simpl.
  - by exists [].
  - destruct (isWhiteSpace c) eqn:Hc.
    + exists (c :: pre). split; [simpl; congruence|]. split; [by constructor|done].
    + exists []. split; [done|]. split; [constructor|]. by intros ? ? [= <- <-].
Qed.

Lemma trimEnd_spec u :
  ∃ post, u = trimEnd u ++ post
          ∧ Forall (fun c => isWhiteSpace c = true) post
          ∧ (∀ c u', trimEnd u = u' ++ [c] → isWhiteSpace c = false).
Proof.
  unfold trimEnd. destruct (trimStart_spec (rev u)) as (pre & Heq & Hpre & Hhead).
  exists (rev pre). split; [|split].
  - by rewrite <- rev_app_distr, <- Heq, rev_involutive.
  - by apply Forall_rev.
  - intros c u' Hu'. apply (Hhead c (rev u')).
    by rewrite <- (rev_involutive (trimStart (rev u))), Hu', rev_unit.
Qed.

Lemma trim_spec u :
  ∃ pre post, u = pre ++ trim u ++ post
    ∧ Forall (fun c => isWhiteSpace c = true) pre
    ∧ Forall (fun c => isWhiteSpace c = true) post
    ∧ (∀ c u', trim u = c :: u' → isWhiteSpace c = false)
    ∧ (∀ c u', trim u = u' ++ [c] → isWhiteSpace c = false).
Proof.
  unfold trim.
  destruct (trimStart_spec u) as (pre & Heq & Hpre & Hhead).
  destruct (trimEnd_spec (trimStart u)) as (post & Heq' & Hpost & Hlast).
  exists pre, post. split; [by rewrite <- Heq', <- Heq|].
  do 2 (split; [done|]). split; [|done].
  intros c u' Hc. apply (Hhead c (u' ++ post)). by rewrite Heq', Hc.
Qed.

Lemma splitWhiteSpace_cons u : ∃ w ws, splitWhiteSpace u = w :: ws.
Proof.
  induction u as [|c u (w & ws & IH)]; simpl; [eauto|].
  destruct (isWhiteSpace c).
  - destruct u as [|c' u]; [eauto|]. destruct (isWhiteSpace c'); eauto.
  - rewrite IH. eauto.
Qed.

(** In a string that does not end in white space, only the first piece of
    the split can be empty. *)
Lemma splitWhiteSpace_tail u :
  (∀ c u', u = u' ++ [c] → isWhiteSpace c = false) →
  ∀ w, w ∈ tail (splitWhiteSpace u) → w ≠ [].
Proof.
  induction u as [|c u IHu]; intros Hlast w; simpl; [by intros ?%elem_of_nil|].
  assert (Hlast' : ∀ c0 u', u = u' ++ [c0] → isWhiteSpace c0 = false).
  { intros c0 u' ->. by apply (Hlast c0 (c :: u')). }
  specialize (IHu Hlast').
  destruct (isWhiteSpace c) eqn:Hc.
  - destruct u as [|c' u].
    { by rewrite (Hlast c [] eq_refl) in Hc. }
    destruct (isWhiteSpace c') eqn:Hc'; [by apply IHu|].
    simpl. revert IHu. simpl. rewrite Hc'.
    destruct (splitWhiteSpace_cons u) as (w0 & ws & ->). simpl.
    intros IHu [->|Hw]%elem_of_cons; [done|by apply IHu].
  - destruct (splitWhiteSpace_cons u) as (w0 & ws & Heq).
    rewrite Heq in IHu |- *. simpl in *. by apply IHu.
Qed.

Lemma splitWhiteSpace_nonempty u w :
  u ≠ [] →
  (∀ c u', u = c :: u' → isWhiteSpace c = false) →
  (∀ c u', u = u' ++ [c] → isWhiteSpace c = false) →
  w ∈ splitWhiteSpace u → w ≠ [].
Proof.
  intros Hne Hhead Hlast Hw.
  pose proof (splitWhiteSpace_tail u Hlast w) as Htail.
  destruct u as [|c u]; [done|]. simpl in *.
  rewrite (Hhead c u eq_refl) in Hw, Htail.
  destruct (splitWhiteSpace_cons u) as (w0 & ws & Heq).
  rewrite Heq in Hw, Htail. simpl in *.
  apply elem_of_cons in Hw as [->|Hw]; [done|by apply Htail].
Qed.

Lemma normalize_words target w :
  normalize target ≠ [] → w ∈ splitWhiteSpace (normalize target) → w ≠ [].
Proof.
  intros Hne. unfold normalize in *.
  destruct (trim_spec (stripPunctuation (toLowerCase target)))
    as (_ & _ & _ & _ & _ & Hhead & Hlast).
  by apply splitWhiteSpace_nonempty.
Qed.

(** ** Similarity *)

Lemma calculateSimilarity_lev a b :
  calculateSimilarity a b =
  Some (if bool_decide (Nat.max (length a) (length b) = 0) then 100%Q
        else percentage (Nat.max (length a) (length b)) (lev a b)).
Proof.
  unfold calculateSimilarity. case_bool_decide; [done|].
  by rewrite levenshtein_lev'.
Qed.

Lemma percentage_bounds L d :
  0 < L → d ≤ L → (0 <= percentage L d ∧ percentage L d <= 100)%Q.
Proof.
  intros HL Hd. unfold percentage.
  assert (HLq : (0 < inject_Z (Z.of_nat L))%Q).
  { change 0%Q with (inject_Z 0). rewrite <- Zlt_Qlt. lia. }
  assert (Hdq : (inject_Z (Z.of_nat d) <= inject_Z (Z.of_nat L))%Q).
  { rewrite <- Zle_Qle. lia. }
  assert (Hd0 : (0 <= inject_Z (Z.of_nat d))%Q).
  { change 0%Q with (inject_Z 0). rewrite <- Zle_Qle. lia. }
  set (l := inject_Z (Z.of_nat L)) in *. set (e := inject_Z (Z.of_nat d)) in *.
  assert (H0 : (0 <= (l - e) / l)%Q).
  { apply Qle_shift_div_l; [done|]. lra. }
  assert (H1 : ((l - e) / l <= 1)%Q).
  { apply Qle_shift_div_r; [done|]. lra. }
  split; lra.
Qed.

Lemma percentage_zero L : 0 < L → (percentage L 0 == 100)%Q.
Proof.
  intros HL. unfold percentage.
  assert (HLq : ¬ (inject_Z (Z.of_nat L) == 0)%Q).
  { change 0%Q with (inject_Z 0). rewrite inject_Z_injective. lia. }
  change (inject_Z (Z.of_nat 0)) with 0%Q. by field.
Qed.

Lemma percentage_full L : 0 < L → (percentage L L == 0)%Q.
Proof.
  intros HL. unfold percentage.
  assert (HLq : ¬ (inject_Z (Z.of_nat L) == 0)%Q).
  { change 0%Q with (inject_Z 0). rewrite inject_Z_injective. lia. }
  by field.
Qed.

(** The comparison with each threshold gives the same answer on the double
    JavaScript computes as on the exact rational, for every distance and
    every length up to 400 units. *)
Lemma double_test_agrees len distance :
  1 ≤ len ≤ 400 → distance ≤ len →
  reachesDouble 50 len distance = Qle_bool (threshold Easy) (percentage len distance)
  ∧ reachesDouble 80 len distance
    = Qle_bool (threshold Medium) (percentage len distance)
  ∧ reachesDouble 95 len distance
    = Qle_bool (threshold Hard) (percentage len distance).
Proof.
  intros Hlen Hd.
  assert (Hall :
    forallb (fun L =>
      forallb (fun d =>
        Bool.eqb (reachesDouble 50 L d) (Qle_bool (threshold Easy) (percentage L d))
        && Bool.eqb (reachesDouble 80 L d)
                    (Qle_bool (threshold Medium) (percentage L d))
        && Bool.eqb (reachesDouble 95 L d)
                    (Qle_bool (threshold Hard) (percentage L d)))
        (seq 0 (S L)))
      (seq 1 400) = true) by (vm_compute; reflexivity).
  rewrite forallb_forall in Hall.
  specialize (Hall len). rewrite forallb_forall in Hall.
  specialize (Hall ltac:(apply in_seq; lia) distance ltac:(apply in_seq; lia)).
  apply andb_true_iff in Hall as [[H50 H80]%andb_true_iff H95].
  by apply eqb_prop in H50, H80, H95.
Qed.

Example double_kitten_sitting :
  similarityDouble 7 3 = 0x1.c924924924924p+5%float.
Proof. by vm_compute. Qed.

(** C1. For all strings [a] and [b], [calculateSimilarity a b] is 100 when
    both are empty and otherwise ((L - d) / L) x 100, where [d] is the
    Levenshtein distance of [a] and [b] (the least cost of a script of
    unit-cost insertions, deletions and substitutions; the value
    [levenshtein] returns) and [L] the greater of the two lengths; the
    result lies between 0 and 100; and the similarity of "kitten" and
    "sitting" is 400/7, from distance 3 and length 7. *)
Theorem calculateSimilarity_spec :
  (∀ a b : str,
     ∃ d sim,
       isEditDistance a b d
       ∧ levenshtein a b = Some d
       ∧ calculateSimilarity a b = Some sim
       ∧ sim = (if bool_decide (a = [] ∧ b = []) then 100%Q
                else percentage (Nat.max (length a) (length b)) d)
       ∧ (0 <= sim)%Q ∧ (sim <= 100)%Q)
  ∧ levenshtein (lit "kitten") (lit "sitting") = Some 3
  ∧ calculateSimilarity (lit "kitten") (lit "sitting") = Some (400 # 7)%Q
  ∧ percentage 7 3 = (400 # 7)%Q.
Proof.
  split; [|by vm_compute].
  intros a b. exists (lev a b). eexists.
  split; [apply lev_isEditDistance|]. split; [apply levenshtein_lev'|].
  split; [apply calculateSimilarity_lev|].
  assert (Hempty : Nat.max (length a) (length b) = 0 ↔ a = [] ∧ b = []).
  { destruct a, b; simpl; split; try done; try lia; intros [? ?]; done. }
  split.
  - do 2 case_bool_decide; tauto.
  - case_bool_decide as HL; [done|].
    apply percentage_bounds; [lia | apply lev_le_max].
Qed.

(** C8. [calculateSimilarity s s] is 100 for every string [s], the empty
    one included; [calculateSimilarity] gives the same result when its
    arguments are exchanged; against the empty string the distance is the
    length of the other string, so the similarity of a non-empty string and
    the empty string is 0, as for "abc". *)
Theorem calculateSimilarity_algebra :
  (∀ u : str, ∃ sim, calculateSimilarity u u = Some sim ∧ (sim == 100)%Q)
  ∧ (∀ a b : str, calculateSimilarity a b = calculateSimilarity b a)
  ∧ (∀ u : str, levenshtein [] u = Some (length u)
                ∧ levenshtein u [] = Some (length u))
  ∧ (∀ (c : ascii) (u : str),
       ∃ sim, calculateSimilarity [] (c :: u) = Some sim
              ∧ calculateSimilarity (c :: u) [] = Some sim
              ∧ (sim == 0)%Q)
  ∧ calculateSimilarity [] [] = Some 100%Q
  ∧ (∃ sim, calculateSimilarity [] (lit "abc") = Some sim
            ∧ calculateSimilarity (lit "abc") [] = Some sim
            ∧ (sim == 0)%Q).
Proof.
  assert (Hsym : ∀ a b : str, calculateSimilarity a b = calculateSimilarity b a).
  { intros a b.
    by rewrite !calculateSimilarity_lev, (Nat.max_comm (length a)), (lev_sym a b). }
  assert (Hempty : ∀ (c : ascii) (u : str),
            ∃ sim, calculateSimilarity [] (c :: u) = Some sim
                   ∧ calculateSimilarity (c :: u) [] = Some sim
                   ∧ (sim == 0)%Q).
  { intros c u. eexists. split; [apply calculateSimilarity_lev|].
    split; [by rewrite Hsym, calculateSimilarity_lev|].
    rewrite bool_decide_eq_false_2 by (simpl; lia).
    apply percentage_full. simpl. lia. }
  split; [|split; [done|split; [|split; [done|split; [done|apply Hempty]]]]].
  - intros u. eexists. split; [apply calculateSimilarity_lev|].
    case_bool_decide as HL; [done|].
    rewrite lev_refl. apply percentage_zero. lia.
  - intros u. by rewrite !levenshtein_lev', lev_nil_r.
Qed.

(** ** Feedback *)

Lemma find_first {A : Type} (f : A → bool) (l : list A) (w : A) :
  List.find f l = Some w →
  ∃ pre post, l = pre ++ w :: post ∧ f w = true ∧ ∀ x, x ∈ pre → f x = false.
Proof.
  induction l as [|x l IHl]; simpl; [done|].
  destruct (f x) eqn:Hx.
  - intros [= ->]. exists [], l. split; [done|]. split; [done|].
    by intros ? ?%elem_of_nil.
  - intros (pre & post & -> & Hw & Hpre)%IHl.
    exists (x :: pre), post. split; [done|]. split; [done|].
    intros x' [->|?]%elem_of_cons; auto.
Qed.

Lemma find_nowhere {A : Type} (f : A → bool) (l : list A) :
  List.find f l = None → ∀ x, x ∈ l → f x = false.
Proof.
  induction l as [|x l IHl]; simpl; [by intros _ ? ?%elem_of_nil|].
  destruct (f x) eqn:Hx; [done|].
  intros Hl x' [->|?]%elem_of_cons; auto.
Qed.

Lemma compareWords_spec targetWords spokenWords n :
  ∀ i,
    i + n ≤ length targetWords → i + n ≤ length spokenWords →
    (∀ k, k < i → targetWords !! k = spokenWords !! k) →
    ∃ fb, compareWords targetWords spokenWords i n = Some fb
      ∧ ((fb = PronounceClearly
          ∧ ∀ k, k < i + n → targetWords !! k = spokenWords !! k)
         ∨ ∃ j x y d, j < i + n
             ∧ firstDifference targetWords spokenWords j x y
             ∧ isEditDistance x y d
             ∧ fb = if d <=? 2 then SlightlyOff x else SaidInstead y x).
Proof.
  induction n as [|n IHn]; intros i Ht Hs Hsame; simpl.
  - eexists. split; [done|]. left. split; [done|].
    intros k Hk. apply Hsame. lia.
  - case_bool_decide as Hi.
    + destruct (IHn (S i)) as (fb & Hrun & Hfb); [lia|lia| |].
      { intros k Hk. destruct (decide (k = i)) as [->|?]; [done|].
        apply Hsame. lia. }
      exists fb. split; [done|].
      destruct Hfb as [[-> Hall]|(j & x & y & d & Hj & Hrest)].
      * left. split; [done|]. intros k Hk. apply Hall. lia.
      * right. exists j, x, y, d. split; [lia|done].
    + destruct (lookup_lt_is_Some_2 targetWords i) as [x Hx]; [lia|].
      destruct (lookup_lt_is_Some_2 spokenWords i) as [y Hy]; [lia|].
      rewrite Hx, Hy. simpl. rewrite levenshtein_lev'. simpl.
      exists (if lev x y <=? 2 then SlightlyOff x else SaidInstead y x).
      split; [by destruct (lev x y <=? 2)|]. right. exists i, x, y, (lev x y).
      split; [lia|]. split; [|split; [apply lev_isEditDistance|done]].
      split; [done|]. split; [done|]. split; [congruence|done].
Qed.

Lemma getPronunciationFeedback_nothing targetText spokenText :
  truthy spokenText = false →
  getPronunciationFeedback targetText spokenText = Some NothingHeard.
Proof. by destruct spokenText as [[|]|]. Qed.

Lemma getPronunciationFeedback_perfect targetText t :
  t ≠ [] → normalize targetText = normalize t →
  getPronunciationFeedback targetText (Some t) = Some Perfect.
Proof.
  intros Ht Heq. destruct t as [|c t]; [done|].
  unfold getPronunciationFeedback. by rewrite bool_decide_eq_true_2.
Qed.

Lemma getPronunciationFeedback_words targetText t :
  t ≠ [] → normalize targetText ≠ normalize t →
  ∃ fb, getPronunciationFeedback targetText (Some t) = Some fb
    ∧ (normalize targetText ≠ [] →
       feedbackRule (splitWhiteSpace (normalize targetText))
                    (splitWhiteSpace (normalize t)) fb).
Proof.
  intros Ht Hne. destruct t as [|c0 t0]; [done|].
  unfold getPronunciationFeedback. rewrite bool_decide_eq_false_2 by done.
  set (targetWords := splitWhiteSpace (normalize targetText)).
  set (spokenWords := splitWhiteSpace (normalize (c0 :: t0))).
  set (absent := fun w : str => negb (bool_decide (w ∈ spokenWords))).
  assert (Hrest :
    ∃ fb,
      (if (2 <? Z.abs (Z.of_nat (length targetWords)
                       - Z.of_nat (length spokenWords)))%Z
       then Some LengthMismatch
       else compareWords targetWords spokenWords 0
              (Nat.min (length targetWords) (length spokenWords))) = Some fb
      ∧ (allPresent targetWords spokenWords →
         feedbackRule targetWords spokenWords fb)).
  { destruct (2 <? _)%Z eqn:Hlen.
    - eexists. split; [done|]. intros Hall. apply rule_length; [done|].
      unfold countsFarApart. lia.
    - assert (Hnear : ¬ countsFarApart targetWords spokenWords)
        by (unfold countsFarApart; lia).
      destruct (compareWords_spec targetWords spokenWords
                  (Nat.min (length targetWords) (length spokenWords)) 0)
        as (fb & -> & Hfb); [lia|lia|intros k Hk; lia|].
      exists fb. split; [done|]. intros Hall.
      destruct Hfb as [[-> Hsame]|(j & x & y & d & Hj & Hdiff & Hd & ->)].
      + apply rule_clearly; [done|done|].
        intros i x y Hx Hy.
        assert (targetWords !! i = spokenWords !! i) as Heq.
        { apply Hsame. apply lookup_lt_Some in Hx, Hy. lia. }
        congruence.
      + destruct (d <=? 2) eqn:Hd2.
        * apply (rule_slightly_off _ _ j x y d); try done.
          by apply Nat.leb_le.
        * apply (rule_said_instead _ _ j x y d); try done.
          apply Nat.leb_gt in Hd2. lia. }
  destruct Hrest as (fb & Hfb & Hrule).
  destruct (List.find absent targetWords) as [w|] eqn:Hfind.
  - destruct (find_first _ _ _ Hfind) as (pre & post & Heq & Hw & Hpre).
    assert (Hin : w ∈ targetWords).
    { rewrite Heq. apply elem_of_app. right. apply elem_of_cons. by left. }
    destruct w as [|c w].
    + exists fb. split; [done|]. intros Hn.
      by destruct (normalize_words _ _ Hn Hin).
    + eexists. split; [done|]. intros _. apply rule_missing.
      exists pre, post. split; [done|]. split.
      * unfold absent in Hw. apply negb_true_iff in Hw.
        by apply bool_decide_eq_false in Hw.
      * intros x Hx. specialize (Hpre x Hx). unfold absent in Hpre.
        apply negb_false_iff in Hpre. by apply bool_decide_eq_true in Hpre.
  - exists fb. split; [done|]. intros _. apply Hrule.
    intros x Hx. pose proof (find_nowhere _ _ Hfind x Hx) as Hf.
    unfold absent in Hf. apply negb_false_iff in Hf.
    by apply bool_decide_eq_true in Hf.
Qed.

(** ** The click handler *)

Lemma conclude_status isCorrect st :
  status (conclude isCorrect st).1 = if isCorrect then correct else incorrect.
Proof. by destruct isCorrect. Qed.

Lemma conclude_feedback isCorrect st :
  feedback (conclude isCorrect st).1 = feedback st.
Proof. by destruct isCorrect. Qed.

Lemma conclude_selectedOption isCorrect st :
  selectedOption (conclude isCorrect st).1 = selectedOption st.
Proof. by destruct isCorrect. Qed.

Lemma conclude_question isCorrect st :
  lesson (conclude isCorrect st).1 = lesson st
  ∧ currentIndex (conclude isCorrect st).1 = currentIndex st.
Proof. by destruct isCorrect. Qed.

Lemma conclude_verdict isCorrect st data currentQ :
  lesson st = Some data → questions data !! currentIndex st = Some currentQ →
  verdict (conclude isCorrect st).1
  = Some (isCorrect, feedbackText currentQ st).
Proof.
  intros Hl Hq. unfold verdict.
  destruct (conclude_question isCorrect st) as [-> ->].
  rewrite Hl. cbn [mbind option_bind]. rewrite Hq. cbn [mbind option_bind].
  rewrite conclude_status. unfold feedbackText.
  rewrite conclude_feedback. by destruct isCorrect.
Qed.

Lemma getPronunciationFeedback_total targetText spokenText :
  ∃ fb, getPronunciationFeedback targetText spokenText = Some fb.
Proof.
  destruct (truthy spokenText) eqn:Ht.
  - destruct spokenText as [[|c t]|]; try done.
    destruct (decide (normalize targetText = normalize (c :: t))) as [Heq|Hne].
    + exists Perfect. by apply getPronunciationFeedback_perfect.
    + destruct (getPronunciationFeedback_words targetText (c :: t))
        as (fb & Hfb & _); eauto.
  - exists NothingHeard. by apply getPronunciationFeedback_nothing.
Qed.

(** The pronunciation branch, past its guard. *)
Lemma handleCheck_pronunciation st data currentQ :
  lesson st = Some data → questions data !! currentIndex st = Some currentQ →
  type currentQ = Pronunciation →
  truthy (spokenText st) || truthy (selectedOption st) = true →
  ∃ sim fb,
    calculateSimilarity (normalize (correctAnswer currentQ))
                        (normalize (default [] (spokenText st))) = Some sim
    ∧ getPronunciationFeedback (correctAnswer currentQ) (spokenText st) = Some fb
    ∧ handleCheck st =
      Some (conclude
              (bool_decide (normalize (default [] (spokenText st))
                            = normalize (correctAnswer currentQ))
               || bool_decide (sensitivity st = Easy)
                  && (includes (normalize (default [] (spokenText st)))
                               (normalize (correctAnswer currentQ))
                      || includes (normalize (correctAnswer currentQ))
                                  (normalize (default [] (spokenText st))))
               || Qle_bool (threshold (sensitivity st)) sim)
              (setFeedback (Some fb) st)).
Proof.
  intros Hl Hq Hty Hin.
  destruct (getPronunciationFeedback_total (correctAnswer currentQ) (spokenText st))
    as [fb Hfb].
  eexists _, fb. split; [apply calculateSimilarity_lev|]. split; [done|].
  unfold handleCheck. rewrite Hl. cbn [mbind option_bind].
  rewrite Hq. cbn [mbind option_bind]. rewrite Hty.
  apply orb_true_iff in Hin.
  replace (negb (truthy (spokenText st)) && negb (truthy (selectedOption st)))
    with false by (destruct (truthy (spokenText st)), (truthy (selectedOption st));
                   simpl; destruct Hin; done).
  rewrite calculateSimilarity_lev. cbn [mbind option_bind].
  by rewrite Hfb.
Qed.

(** C2. For a pronunciation question and a non-empty transcript, the
    threshold depends on the sensitivity alone (Easy 50, Medium 80, Hard 95)
    and the verdict is "correct" exactly when the similarity of the two
    normalized strings reaches the threshold, or the normalized strings are
    equal, or the sensitivity is Easy and one normalized string occurs in the
    other; under Easy that last alternative passes whatever the score, and
    under Medium and Hard it plays no part. *)
Theorem pronunciation_verdict st data currentQ t :
  lesson st = Some data → questions data !! currentIndex st = Some currentQ →
  type currentQ = Pronunciation →
  spokenText st = Some t → t ≠ [] →
  ∃ sim st' effects,
    calculateSimilarity (normalize (correctAnswer currentQ)) (normalize t)
    = Some sim
    ∧ handleCheck st = Some (st', effects)
    ∧ (status st' = correct ∨ status st' = incorrect)
    ∧ (status st' = correct ↔
         (threshold (sensitivity st) <= sim)%Q
         ∨ normalize t = normalize (correctAnswer currentQ)
         ∨ (sensitivity st = Easy
            ∧ (isSubstring (normalize t) (normalize (correctAnswer currentQ))
               ∨ isSubstring (normalize (correctAnswer currentQ)) (normalize t))))
    ∧ (sensitivity st = Easy →
       isSubstring (normalize t) (normalize (correctAnswer currentQ))
       ∨ isSubstring (normalize (correctAnswer currentQ)) (normalize t) →
       status st' = correct)
    ∧ (sensitivity st ≠ Easy →
       (status st' = correct ↔
          (threshold (sensitivity st) <= sim)%Q
          ∨ normalize t = normalize (correctAnswer currentQ)))
    ∧ threshold Easy = 50%Q ∧ threshold Medium = 80%Q ∧ threshold Hard = 95%Q.
Proof.
  intros Hl Hq Hty Ht Hne.
  destruct (handleCheck_pronunciation st data currentQ Hl Hq Hty)
    as (sim & fb & Hsim & Hfb & Hrun).
  { rewrite Ht. by destruct t. }
  rewrite Ht in Hsim, Hrun. simpl in Hsim, Hrun.
  eexists sim, _, _. split; [done|]. split.
  { rewrite Hrun. apply f_equal, surjective_pairing. }
  rewrite conclude_status.
  set (target := normalize (correctAnswer currentQ)) in *.
  set (input := normalize t) in *.
  assert (Hiff :
    bool_decide (input = target)
    || bool_decide (sensitivity st = Easy)
       && (includes input target || includes target input)
    || Qle_bool (threshold (sensitivity st)) sim = true
    ↔ (threshold (sensitivity st) <= sim)%Q ∨ input = target
      ∨ (sensitivity st = Easy
         ∧ (isSubstring input target ∨ isSubstring target input))).
  { rewrite !orb_true_iff, andb_true_iff, orb_true_iff, !bool_decide_eq_true,
      !includes_spec, Qle_bool_iff. tauto. }
  destruct (_ || _ || Qle_bool _ _) eqn:Hb.
  - split; [by left|]. split; [by split; [intros _; apply Hiff|]|].
    split; [done|]. split; [|done].
    intros Hs. split; [|done]. intros _.
    destruct (proj1 Hiff eq_refl) as [?|[?|[? _]]]; tauto.
  - split; [by right|].
    assert (Hno : ¬ ((threshold (sensitivity st) <= sim)%Q ∨ input = target
                     ∨ (sensitivity st = Easy
                        ∧ (isSubstring input target ∨ isSubstring target input)))).
    { intros H%Hiff. done. }
    split; [split; [done|tauto]|].
    split; [tauto|]. split; [|done].
    intros Hs. split; [done|tauto].
Qed.

Lemma pronunciation_verdict_witness :
  ∃ sim st' effects,
    calculateSimilarity (lit "good morning") (lit "good morning everyone")
    = Some sim
    ∧ handleCheck (greetingEveryone Easy) = Some (st', effects)
    ∧ status st' = correct.
Proof.
  destruct (pronunciation_verdict (greetingEveryone Easy) _ _
              (lit "good morning everyone") eq_refl eq_refl eq_refl eq_refl)
    as (sim & st' & effects & Hsim & Hrun & _ & _ & Heasy & _); [done|].
  exists sim, st', effects. split; [exact Hsim|]. split; [exact Hrun|].
  apply Heasy; [reflexivity|]. right. exists [], (lit " everyone"). reflexivity.
Defined.

(** Under Easy the occurrence of the target in the transcript passes a score
    below 50: "hi" read as "hi there everyone" scores 200/17; the same
    transcript fails under Medium and Hard. *)
Example lenient_substring_below_threshold :
  let heard sens :=
    setSensitivity sens
      (onresult (lit "hi there everyone") (startLesson (pronunciationQuestion (lit "hi")))) in
  calculateSimilarity (lit "hi") (lit "hi there everyone") = Some (200 # 17)%Q
  ∧ (status <$> (fst <$> handleCheck (heard Easy))) = Some correct
  ∧ (status <$> (fst <$> handleCheck (heard Medium))) = Some incorrect
  ∧ (status <$> (fst <$> handleCheck (heard Hard))) = Some incorrect.
Proof. by vm_compute. Qed.

Example greeting_everyone_scores :
  calculateSimilarity (lit "good morning") (lit "good morning everyone")
  = Some (1200 # 21)%Q
  ∧ (status <$> (fst <$> handleCheck (greetingEveryone Easy))) = Some correct
  ∧ (status <$> (fst <$> handleCheck (greetingEveryone Medium))) = Some incorrect
  ∧ (status <$> (fst <$> handleCheck (greetingEveryone Hard))) = Some incorrect.
Proof. by vm_compute. Qed.

Lemma punctuationClass_set c :
  punctuationClass c = false ↔ c ∉ punctuationSet.
Proof.
  assert (H : bool_decide (c ∈ punctuationSet) = punctuationClass c).
  { destruct c as [[] [] [] [] [] [] [] []]; by vm_compute. }
  rewrite <- H, bool_decide_eq_false. done.
Qed.

Lemma stripPunctuation_set x :
  stripPunctuation x = filter (fun c => c ∉ punctuationSet) x.
Proof.
  unfold stripPunctuation. apply list_filter_iff. apply punctuationClass_set.
Qed.

(** C4. The target and the transcript are normalized by lowercasing,
    removing the units . , / # ! $ % ^ & * ; : { } = - _ ` ~ ( ) and trimming
    the white space at both ends; for a non-empty transcript whose
    normalization equals that of the target, the verdict is "correct", the
    feedback is the perfect-pronunciation sentence and the similarity of the
    two normalized strings is 100. *)
Theorem pronunciation_exact_match :
  (∀ x, normalize x
        = trim (filter (fun c => c ∉ punctuationSet) (toLowerCase x)))
  ∧ toLowerCase (lit "ABCDEFGHIJKLMNOPQRSTUVWXYZ")
    = lit "abcdefghijklmnopqrstuvwxyz"
  ∧ (∀ x, ∃ pre post,
       x = pre ++ trim x ++ post
       ∧ Forall (fun c => isWhiteSpace c = true) pre
       ∧ Forall (fun c => isWhiteSpace c = true) post
       ∧ (∀ c u, trim x = c :: u → isWhiteSpace c = false)
       ∧ (∀ c u, trim x = u ++ [c] → isWhiteSpace c = false))
  ∧ ∀ st data currentQ t,
      lesson st = Some data →
      questions data !! currentIndex st = Some currentQ →
      type currentQ = Pronunciation →
      spokenText st = Some t → t ≠ [] →
      normalize t = normalize (correctAnswer currentQ) →
      ∃ sim st' effects,
        handleCheck st = Some (st', effects)
        ∧ status st' = correct
        ∧ feedback st' = Some Perfect
        ∧ verdict st' = Some (true, FeedbackMessage (Some Perfect))
        ∧ calculateSimilarity (normalize (correctAnswer currentQ)) (normalize t)
          = Some sim
        ∧ (sim == 100)%Q.
Proof.
  split; [intros x; unfold normalize; by rewrite stripPunctuation_set|].
  split; [by vm_compute|]. split; [apply trim_spec|].
  intros st data currentQ t Hl Hq Hty Ht Hne Heq.
  destruct (handleCheck_pronunciation st data currentQ Hl Hq Hty)
    as (sim & fb & Hsim & Hfb & Hrun).
  { rewrite Ht. by destruct t. }
  rewrite Ht in Hsim, Hfb, Hrun.
  change (default [] (Some t)) with t in Hsim, Hrun.
  rewrite getPronunciationFeedback_perfect in Hfb by done.
  injection Hfb as <-.
  rewrite (bool_decide_eq_true_2 _ Heq) in Hrun. cbn [orb] in Hrun.
  eexists sim, _, _. split; [rewrite Hrun; apply f_equal, surjective_pairing|].
  split; [done|]. split; [done|].
  split.
  { rewrite (conclude_verdict true (setFeedback (Some Perfect) st)
               data currentQ Hl Hq).
    unfold feedbackText. by rewrite bool_decide_eq_true_2. }
  split; [done|].
  rewrite Heq, calculateSimilarity_lev in Hsim. injection Hsim as <-.
  case_bool_decide as HL; [done|].
  rewrite lev_refl. apply percentage_zero. lia.
Qed.

Lemma pronunciation_exact_match_witness :
  ∃ st' effects,
    handleCheck happyExclaimed = Some (st', effects)
    ∧ normalize (lit "I am happy!") = lit "i am happy"
    ∧ status st' = correct
    ∧ feedback st' = Some Perfect.
Proof.
  destruct (proj2 (proj2 (proj2 pronunciation_exact_match)) happyExclaimed _ _
              (lit "I am happy!") eq_refl eq_refl eq_refl eq_refl)
    as (sim & st' & effects & Hrun & Hstatus & Hfb & _); [done|reflexivity|].
  exists st', effects. repeat split; [exact Hrun|exact Hstatus|exact Hfb].
Defined.

(** C9. A transcript that is not empty but normalizes to the empty string
    (punctuation and white space only) is accepted under Easy, because the
    empty string occurs in every normalized target, and is rejected under
    Medium and Hard, for every target whose normalization is not empty. *)
Theorem punctuation_only_transcript st data currentQ t :
  lesson st = Some data → questions data !! currentIndex st = Some currentQ →
  type currentQ = Pronunciation →
  spokenText st = Some t → t ≠ [] → normalize t = [] →
  ∃ st' effects,
    handleCheck st = Some (st', effects)
    ∧ isSubstring (normalize t) (normalize (correctAnswer currentQ))
    ∧ (sensitivity st = Easy → status st' = correct)
    ∧ (sensitivity st ≠ Easy → normalize (correctAnswer currentQ) ≠ [] →
       status st' = incorrect).
Proof.
  intros Hl Hq Hty Ht Hne Hempty.
  destruct (handleCheck_pronunciation st data currentQ Hl Hq Hty)
    as (sim & fb & Hsim & Hfb & Hrun).
  { rewrite Ht. by destruct t. }
  rewrite Ht in Hsim, Hrun. simpl in Hsim, Hrun. rewrite Hempty in Hsim, Hrun.
  eexists _, _. split; [rewrite Hrun; apply f_equal, surjective_pairing|].
  split; [rewrite Hempty; by exists [], (normalize (correctAnswer currentQ))|].
  rewrite conclude_status, includes_nil, orb_true_r, andb_true_r.
  split.
  - intros ->. rewrite (bool_decide_eq_true_2 (Easy = Easy)) by done.
    by rewrite orb_true_r.
  - intros Hsens Htarget.
    rewrite (bool_decide_eq_false_2 ([] = normalize (correctAnswer currentQ)))
      by congruence.
    rewrite (bool_decide_eq_false_2 (sensitivity st = Easy)) by done.
    assert (Hzero : (sim == 0)%Q).
    { rewrite calculateSimilarity_lev in Hsim. injection Hsim as <-.
      destruct (normalize (correctAnswer currentQ)) as [|c u] eqn:Hn; [done|].
      rewrite bool_decide_eq_false_2 by (simpl; lia).
      rewrite lev_nil_r, Nat.max_0_r. apply percentage_full. simpl. lia. }
    assert (Hlow : Qle_bool (threshold (sensitivity st)) sim = false).
    { apply not_true_is_false. rewrite Qle_bool_iff, Hzero.
      destruct (sensitivity st); simpl; lra. }
    by rewrite Hlow.
Qed.

Lemma punctuation_only_transcript_witness :
  normalize (lit "... !") = []
  ∧ (status <$> (fst <$> handleCheck (onlyPunctuation Easy))) = Some correct
  ∧ (status <$> (fst <$> handleCheck (onlyPunctuation Medium))) = Some incorrect
  ∧ (status <$> (fst <$> handleCheck (onlyPunctuation Hard))) = Some incorrect.
Proof.
  split; [reflexivity|].
  destruct (punctuation_only_transcript (onlyPunctuation Easy) _ _ (lit "... !")
              eq_refl eq_refl eq_refl eq_refl)
    as (st1 & e1 & -> & _ & H1 & _); [done|reflexivity|].
  destruct (punctuation_only_transcript (onlyPunctuation Medium) _ _ (lit "... !")
              eq_refl eq_refl eq_refl eq_refl)
    as (st2 & e2 & -> & _ & _ & H2); [done|reflexivity|].
  destruct (punctuation_only_transcript (onlyPunctuation Hard) _ _ (lit "... !")
              eq_refl eq_refl eq_refl eq_refl)
    as (st3 & e3 & -> & _ & _ & H3); [done|reflexivity|].
  simpl in *. by rewrite H1, H2, H3.
Defined.

(** Without a selected option the choice branch returns at its guard, as the
    disabled Check button lets expect. *)
Lemma choice_without_selection st data currentQ :
  lesson st = Some data → questions data !! currentIndex st = Some currentQ →
  type currentQ = TranslateToEnglish ∨ type currentQ = TranslateToBengali
  ∨ type currentQ = FillBlank →
  truthy (selectedOption st) = false →
  handleCheck st = Some (st, []).
Proof.
  intros Hl Hq Hty Hsel. unfold handleCheck. rewrite Hl. cbn [mbind option_bind].
  rewrite Hq. cbn [mbind option_bind]. rewrite Hsel.
  by destruct Hty as [-> | [-> | ->]].
Qed.

(** C3, as amended. For a pronunciation question with no transcript (absent
    or empty) and no selected option, whatever the sensitivity, [handleCheck]
    returns at its guard: the state is left as it is and nothing is done
    outside it, so no verdict is produced, no similarity is used and no heart
    is lost; the nothing-heard sentence is what [getPronunciationFeedback]
    returns for an absent or empty transcript. *)
Theorem nothing_heard_guard st data currentQ :
  lesson st = Some data → questions data !! currentIndex st = Some currentQ →
  type currentQ = Pronunciation →
  truthy (spokenText st) = false → truthy (selectedOption st) = false →
  handleCheck st = Some (st, [])
  ∧ (status st = idle → verdict st = None)
  ∧ getPronunciationFeedback (correctAnswer currentQ) (spokenText st)
    = Some NothingHeard.
Proof.
  intros Hl Hq Hty Hspoken Hselected. split; [|split].
  - unfold handleCheck. rewrite Hl. cbn [mbind option_bind].
    rewrite Hq. cbn [mbind option_bind]. by rewrite Hty, Hspoken, Hselected.
  - intros Hidle. unfold verdict. rewrite Hl. cbn [mbind option_bind].
    by rewrite Hq, Hidle.
  - by apply getPronunciationFeedback_nothing.
Qed.

Lemma nothing_heard_guard_witness :
  handleCheck (nothingHeardYet Hard) = Some (nothingHeardYet Hard, [])
  ∧ getPronunciationFeedback (lit "hello") None = Some NothingHeard.
Proof.
  destruct (nothing_heard_guard (nothingHeardYet Hard) _ _
              eq_refl eq_refl eq_refl eq_refl eq_refl) as (Hrun & _ & Hfb).
  split; [exact Hrun | exact Hfb].
Defined.

(** C3, as stated, fails: with nothing heard, [handleCheck] produces no
    verdict at all, under each sensitivity; the status stays idle, the
    feedback stays unset and no heart is lost. *)
Lemma nothing_heard_counterexample :
  Forall (fun sens =>
            handleCheck (nothingHeardYet sens) = Some (nothingHeardYet sens, [])
            ∧ status (nothingHeardYet sens) = idle
            ∧ feedback (nothingHeardYet sens) = None
            ∧ verdict (nothingHeardYet sens) = None
            ∧ ¬ ∃ st' effects,
                  handleCheck (nothingHeardYet sens) = Some (st', effects)
                  ∧ status st' = incorrect
                  ∧ feedback st' = Some NothingHeard)
         [Easy; Medium; Hard].
Proof.
  repeat constructor; try done;
    by intros (st' & effects & [= <- <-] & Hstatus & _).
Qed.

(** C5, as amended. For a pronunciation question whose normalized target is
    not empty and a non-empty transcript whose normalization differs from
    it, the feedback is fixed by the first applicable rule, whatever the
    sensitivity and the verdict: the first target word absent from the
    transcript's words is named as not clear; else word counts more than 2
    apart give the length sentence; else the first position, within the
    shorter sequence, where the words differ gives "slightly off" with the
    target word when the two words are at edit distance at most 2 and "you
    said Y instead of X" otherwise; else the pronounce-more-clearly
    sentence. *)
Theorem pronunciation_feedback_rule st data currentQ t :
  lesson st = Some data → questions data !! currentIndex st = Some currentQ →
  type currentQ = Pronunciation →
  spokenText st = Some t → t ≠ [] →
  normalize (correctAnswer currentQ) ≠ normalize t →
  normalize (correctAnswer currentQ) ≠ [] →
  ∃ fb st' effects,
    getPronunciationFeedback (correctAnswer currentQ) (Some t) = Some fb
    ∧ feedbackRule (splitWhiteSpace (normalize (correctAnswer currentQ)))
                   (splitWhiteSpace (normalize t)) fb
    ∧ handleCheck st = Some (st', effects)
    ∧ feedback st' = Some fb
    ∧ (status st' = correct ∨ status st' = incorrect)
    ∧ verdict st' = Some (bool_decide (status st' = correct),
                          FeedbackMessage (Some fb)).
Proof.
  intros Hl Hq Hty Ht Hne Hdiff Htarget.
  destruct (getPronunciationFeedback_words (correctAnswer currentQ) t Hne Hdiff)
    as (fb & Hfb & Hrule).
  destruct (handleCheck_pronunciation st data currentQ Hl Hq Hty)
    as (sim & fb' & Hsim & Hfb' & Hrun).
  { rewrite Ht. by destruct t. }
  rewrite Ht, Hfb in Hfb'. injection Hfb' as <-.
  eexists fb, _, _. split; [done|]. split; [by apply Hrule|].
  split; [rewrite Hrun; apply f_equal, surjective_pairing|].
  rewrite conclude_feedback, conclude_status.
  rewrite (conclude_verdict _ (setFeedback (Some fb) st) data currentQ Hl Hq).
  split; [done|]. unfold feedbackText.
  rewrite (bool_decide_eq_true_2 (type currentQ = Pronunciation)) by done.
  destruct (_ || _ || Qle_bool _ _); split; auto.
Qed.

Lemma pronunciation_feedback_rule_witness :
  ∃ st' effects,
    handleCheck happyWithoutVery = Some (st', effects)
    ∧ feedback st' = Some (NotClear (lit "very")).
Proof.
  destruct (pronunciation_feedback_rule happyWithoutVery _ _
              (lit "I am happy today") eq_refl eq_refl eq_refl eq_refl)
    as (fb & st' & effects & Hfb & _ & Hrun & Hfeedback & _);
    [done|by vm_compute|done|].
  exists st', effects. split; [exact Hrun|].
  vm_compute in Hfb. injection Hfb as <-. exact Hfeedback.
Defined.

(** C5, as stated, fails on a target that normalizes to the empty string:
    for the target "!" and the transcript "hi" the one piece of the target,
    the empty word, is absent from the transcript's words, yet the feedback
    is the slightly-off sentence for the empty word, which no rule of the
    claim prescribes. *)
Lemma pronunciation_feedback_rule_counterexample :
  splitWhiteSpace (normalize (lit "!")) = [[]]
  ∧ splitWhiteSpace (normalize (lit "hi")) = [lit "hi"]
  ∧ getPronunciationFeedback (lit "!") (Some (lit "hi")) = Some (SlightlyOff [])
  ∧ firstAbsent (splitWhiteSpace (normalize (lit "!")))
                (splitWhiteSpace (normalize (lit "hi"))) []
  ∧ ¬ feedbackRule (splitWhiteSpace (normalize (lit "!")))
                   (splitWhiteSpace (normalize (lit "hi"))) (SlightlyOff []).
Proof.
  split; [reflexivity|]. split; [reflexivity|]. split; [by vm_compute|].
  assert (Habsent : ([] : str) ∉ [lit "hi"]).
  { intros [Hh|Hn%elem_of_nil]%elem_of_cons; done. }
  split.
  - exists [], []. split; [reflexivity|]. split; [exact Habsent|].
    by intros ? ?%elem_of_nil.
  - intros Hrule. inversion Hrule; subst.
    match goal with Hall : allPresent _ _ |- _ => apply Habsent, Hall end.
    change (splitWhiteSpace (normalize (lit "!"))) with [[] : str].
    apply elem_of_cons. by left.
Qed.

Lemma tiles_at_indices (opts : list str) (indices : list nat) (tiles : list str) :
  Forall2 (fun i tile => opts !! i = Some tile) indices tiles →
  map (fun i => default [] (opts !! i)) indices = tiles.
Proof. induction 1 as [|i tile ? ? Hi _ IH]; simpl; [done|]. by rewrite Hi, IH. Qed.

(** C6. For a word-builder question the submitted word is the concatenation,
    in the order the tiles were chosen, of the strings [options] holds at
    the chosen indices, and the verdict is "correct" exactly when that word
    equals [correctAnswer] unit for unit; with the tiles H, E, L, P, F, U, L
    and the answer "HELPFUL", the indices 0..6 in order are correct and the
    order 3, 0, 1, 2, 4, 5, 6 ("PHELFUL") is incorrect. *)
Theorem wordBuilder_verdict :
  (∀ st data currentQ,
     lesson st = Some data →
     questions data !! currentIndex st = Some currentQ →
     type currentQ = WordBuilder →
     ∃ formedWord st' effects,
       handleCheck st = Some (st', effects)
       ∧ selectedOption st' = Some formedWord
       ∧ (∀ tiles,
            Forall2 (fun i tile => options currentQ !! i = Some tile)
                    (builtWordIndices st) tiles →
            formedWord = concat tiles)
       ∧ (status st' = correct ↔ formedWord = correctAnswer currentQ)
       ∧ (status st' = incorrect ↔ formedWord ≠ correctAnswer currentQ)
       ∧ verdict st' = Some (bool_decide (formedWord = correctAnswer currentQ),
                             Explanation (explanation currentQ)))
  ∧ builtWordIndices helpfulInOrder = [0; 1; 2; 3; 4; 5; 6]
  ∧ (status <$> (fst <$> handleCheck helpfulInOrder)) = Some correct
  ∧ (selectedOption <$> (fst <$> handleCheck helpfulInOrder))
    = Some (Some (lit "HELPFUL"))
  ∧ builtWordIndices helpfulScrambled = [3; 0; 1; 2; 4; 5; 6]
  ∧ (status <$> (fst <$> handleCheck helpfulScrambled)) = Some incorrect
  ∧ (selectedOption <$> (fst <$> handleCheck helpfulScrambled))
    = Some (Some (lit "PHELFUL")).
Proof.
  split; [|by vm_compute].
  intros st data currentQ Hl Hq Hty.
  set (formedWord := concat (map (fun i => default [] (options currentQ !! i))
                                 (builtWordIndices st))).
  assert (Hrun : handleCheck st =
                 Some (conclude (bool_decide (formedWord = correctAnswer currentQ))
                         (setSelectedOption (Some formedWord) (setFeedback None st)))).
  { unfold handleCheck. rewrite Hl. cbn [mbind option_bind].
    rewrite Hq. cbn [mbind option_bind]. by rewrite Hty. }
  eexists formedWord, _, _.
  split; [rewrite Hrun; apply f_equal, surjective_pairing|].
  rewrite conclude_selectedOption, conclude_status.
  rewrite (conclude_verdict _ (setSelectedOption (Some formedWord) (setFeedback None st))
             data currentQ Hl Hq).
  split; [done|]. split.
  { intros tiles Htiles. unfold formedWord. by rewrite (tiles_at_indices _ _ _ Htiles). }
  unfold feedbackText.
  rewrite (bool_decide_eq_false_2 (type currentQ = Pronunciation)) by congruence.
  case_bool_decide; repeat split; try done; by intros [].
Qed.

Lemma wordBuilder_verdict_witness :
  ∃ st' effects,
    handleCheck helpfulScrambled = Some (st', effects)
    ∧ selectedOption st' = Some (lit "PHELFUL")
    ∧ status st' = incorrect.
Proof.
  destruct (proj1 wordBuilder_verdict helpfulScrambled _ helpfulQuestion
              eq_refl eq_refl eq_refl)
    as (formedWord & st' & effects & Hrun & Hsel & Htiles & _ & Hwrong & _).
  assert (Hword : formedWord = lit "PHELFUL").
  { apply (Htiles (map lit ["P"; "H"; "E"; "L"; "F"; "U"; "L"]%string)).
    repeat constructor. }
  exists st', effects. split; [exact Hrun|]. rewrite <- Hword. split; [exact Hsel|].
  apply Hwrong. rewrite Hword. discriminate.
Defined.

(** C7. For a translation question (either direction) or a fill-in-the-blank
    question with an option selected, the verdict is "correct" exactly when
    the selected string equals [correctAnswer] unit for unit, nothing being
    normalized, so a difference of case or of white space makes it
    "incorrect"; the text shown under the verdict is the explanation of the
    question in both cases. *)
Theorem choice_verdict st data currentQ choice :
  lesson st = Some data → questions data !! currentIndex st = Some currentQ →
  type currentQ = TranslateToEnglish ∨ type currentQ = TranslateToBengali
  ∨ type currentQ = FillBlank →
  selectedOption st = Some choice → choice ≠ [] →
  ∃ st' effects,
    handleCheck st = Some (st', effects)
    ∧ (status st' = correct ↔ choice = correctAnswer currentQ)
    ∧ (status st' = incorrect ↔ choice ≠ correctAnswer currentQ)
    ∧ (normalize choice = normalize (correctAnswer currentQ) →
       choice ≠ correctAnswer currentQ → status st' = incorrect)
    ∧ verdict st' = Some (bool_decide (choice = correctAnswer currentQ),
                          Explanation (explanation currentQ)).
Proof.
  intros Hl Hq Hty Hsel Hne.
  assert (Hrun : handleCheck st =
                 Some (conclude (bool_decide (choice = correctAnswer currentQ))
                         (setFeedback None st))).
  { unfold handleCheck. rewrite Hl. cbn [mbind option_bind].
    rewrite Hq. cbn [mbind option_bind]. rewrite Hsel.
    assert (Hdec : bool_decide (Some choice = Some (correctAnswer currentQ))
                   = bool_decide (choice = correctAnswer currentQ)).
    { apply bool_decide_ext. split; congruence. }
    destruct choice as [|c choice]; [done|].
    destruct Hty as [-> | [-> | ->]]; simpl; by rewrite Hdec. }
  eexists _, _. split; [rewrite Hrun; apply f_equal, surjective_pairing|].
  rewrite conclude_status.
  rewrite (conclude_verdict _ (setFeedback None st) data currentQ Hl Hq).
  unfold feedbackText.
  rewrite (bool_decide_eq_false_2 (type currentQ = Pronunciation))
    by (destruct Hty as [-> | [-> | ->]]; done).
  case_bool_decide; repeat split; try done; by intros [].
Qed.

Lemma choice_verdict_witness :
  normalize (lit "Am") = normalize (lit "am")
  ∧ ∃ st' effects,
      handleCheck blankCapitalized = Some (st', effects)
      ∧ status st' = incorrect
      ∧ verdict st' = Some (false, Explanation (lit "I takes am")).
Proof.
  split; [reflexivity|].
  destruct (choice_verdict blankCapitalized _ blankQuestion (lit "Am")
              eq_refl eq_refl (or_intror (or_intror eq_refl)) eq_refl)
    as (st' & effects & Hrun & _ & Hwrong & _ & Hverdict); [done|].
  exists st', effects. split; [exact Hrun|].
  split; [apply Hwrong; discriminate | exact Hverdict].
Defined.

Example choice_exact_is_correct :
  (status <$> (fst <$> handleCheck blankExact)) = Some correct
  ∧ (verdict <$> (fst <$> handleCheck blankExact))
    = Some (Some (true, Explanation (lit "I takes am"))).
Proof. by vm_compute. Qed.

Lemma conclude_effects isCorrect st :
  (conclude isCorrect st).2
  = if isCorrect then [PlayPop] else [ReduceHearts; PlayClick].
Proof. by destruct isCorrect. Qed.

(** What a run of [handleCheck] lets the learner observe: the verdict the
    footer shows afterwards, and what was done outside the state. *)
Lemma handleCheck_observed data currentQ isCorrect st0 :
  lesson st0 = Some data → questions data !! currentIndex st0 = Some currentQ →
  (fun r : State * list Effect => (verdict r.1, r.2)) (conclude isCorrect st0)
  = (Some (isCorrect, feedbackText currentQ st0),
     if isCorrect then [PlayPop] else [ReduceHearts; PlayClick]).
Proof.
  intros Hl Hq. cbn beta.
  by rewrite (conclude_verdict _ _ data currentQ Hl Hq), conclude_effects.
Qed.

(** C10. The outcome of a check depends on the question, the submission
    (selected option, transcript, chosen tiles) and the sensitivity alone:
    two idle states that agree on these give the same verdict, the same
    feedback text and the same effects, whatever the score and the feedback
    left in the state by earlier questions. *)
Theorem handleCheck_inputs st1 st2 :
  lesson st1 = lesson st2 → currentIndex st1 = currentIndex st2 →
  selectedOption st1 = selectedOption st2 →
  spokenText st1 = spokenText st2 →
  builtWordIndices st1 = builtWordIndices st2 →
  sensitivity st1 = sensitivity st2 →
  status st1 = idle → status st2 = idle →
  (fun r : State * list Effect => (verdict r.1, r.2)) <$> handleCheck st1
  = (fun r : State * list Effect => (verdict r.1, r.2)) <$> handleCheck st2.
Proof.
  intros Hl Hi Hsel Hsp Hb Hs Hidle1 Hidle2.
  assert (Hnone : ∀ st, status st = idle →
            (fun r : State * list Effect => (verdict r.1, r.2)) (st, [])
            = (None, [])).
  { intros st Hidle. cbn. unfold verdict. destruct (lesson st); [|done].
    simpl. destruct (questions _ !! _); [|done]. simpl. by rewrite Hidle. }
  unfold handleCheck. rewrite <- Hl, <- Hi, <- Hsel, <- Hsp, <- Hb, <- Hs.
  destruct (lesson st1) as [data|] eqn:Hl1.
  2: { cbn [fmap option_fmap option_map]. by rewrite !Hnone. }
  cbn [mbind option_bind].
  destruct (questions data !! currentIndex st1) as [currentQ|] eqn:Hq1; [|done].
  cbn [mbind option_bind].
  assert (Hl2 : lesson st2 = Some data) by congruence.
  assert (Hq2 : questions data !! currentIndex st2 = Some currentQ) by congruence.
  destruct (type currentQ) eqn:Hty.
  1-3: destruct (negb (truthy (selectedOption st1)));
       cbn [fmap option_fmap option_map];
       [by rewrite !Hnone
       |rewrite !(handleCheck_observed data currentQ) by done;
        unfold feedbackText; by rewrite Hty].
  - destruct (negb (truthy (spokenText st1)) && negb (truthy (selectedOption st1))).
    { cbn [fmap option_fmap option_map]. by rewrite !Hnone. }
    destruct (calculateSimilarity _ _) as [sim|]; [|done].
    cbn [mbind option_bind].
    destruct (getPronunciationFeedback _ _) as [fb|]; [|done].
    cbn [mbind option_bind fmap option_fmap option_map].
    rewrite !(handleCheck_observed data currentQ) by done.
    unfold feedbackText. by rewrite Hty.
  - cbn [fmap option_fmap option_map].
    rewrite !(handleCheck_observed data currentQ) by done.
    unfold feedbackText. by rewrite Hty.
Qed.

Lemma handleCheck_inputs_witness :
  (fun r : State * list Effect => (verdict r.1, r.2))
    <$> handleCheck (greetingEveryone Easy)
  = (fun r : State * list Effect => (verdict r.1, r.2))
      <$> handleCheck (setScore (fun _ => 30)
                         (setFeedback (Some Perfect) (greetingEveryone Easy))).
Proof. apply handleCheck_inputs; reflexivity. Defined.

(** * Further properties of the code *)

(** ** Edit distance *)

Lemma lev_zero u v : lev u v = 0 ↔ u = v.
Proof.
  split; [|intros ->; apply lev_refl].
  revert v. induction u as [|x u IHu]; intros v.
  - simpl. by destruct v.
  - destruct v as [|y v]; [done|].
    rewrite lev_cons. case_bool_decide; [|done].
    intros ?%IHu. congruence.
Qed.

Lemma edits_compose a b n :
  edits a b n → ∀ c m, edits b c m → ∃ k, k ≤ n + m ∧ edits a c k.
Proof.
  induction 1 as [|x u v n _ IH|x y u v n _ IH|x u v n _ IH|y u v n _ IH];
    intros c m H2.
  - exists m. split; [lia|done].
  - remember (x :: v) as b eqn:Hb.
    induction H2 as [|x' v' w m H2 _|x' d v' w m H2 _|x' v' w m H2 _|d v' w m H2 IH2];
      simplify_eq.
    + destruct (IH _ _ H2) as (k & ? & ?). exists k. split; [lia|by constructor].
    + destruct (IH _ _ H2) as (k & ? & ?). exists (S k). split; [lia|by constructor].
    + destruct (IH _ _ H2) as (k & ? & ?). exists (S k). split; [lia|by constructor].
    + destruct (IH2 eq_refl) as (k & ? & ?). exists (S k). split; [lia|by constructor].
  - remember (y :: v) as b eqn:Hb.
    induction H2 as [|x' v' w m H2 _|x' d v' w m H2 _|x' v' w m H2 _|d v' w m H2 IH2];
      simplify_eq.
    + destruct (IH _ _ H2) as (k & ? & ?). exists (S k). split; [lia|by constructor].
    + destruct (IH _ _ H2) as (k & ? & ?). exists (S k). split; [lia|by constructor].
    + destruct (IH _ _ H2) as (k & ? & ?). exists (S k). split; [lia|by constructor].
    + destruct (IH2 eq_refl) as (k & ? & ?). exists (S k). split; [lia|by constructor].
  - destruct (IH _ _ H2) as (k & ? & ?). exists (S k). split; [lia|by constructor].
  - remember (y :: v) as b eqn:Hb.
    induction H2 as [|x' v' w m H2 _|x' d v' w m H2 _|x' v' w m H2 _|d v' w m H2 IH2];
      simplify_eq.
    + destruct (IH _ _ H2) as (k & ? & ?). exists (S k). split; [lia|by constructor].
    + destruct (IH _ _ H2) as (k & ? & ?). exists (S k). split; [lia|by constructor].
    + destruct (IH _ _ H2) as (k & ? & ?). exists k. split; [lia|done].
    + destruct (IH2 eq_refl) as (k & ? & ?). exists (S k). split; [lia|by constructor].
Qed.

Lemma lev_triangle a b c : lev a c ≤ lev a b + lev b c.
Proof.
  destruct (edits_compose a b _ (lev_edits a b) c _ (lev_edits b c))
    as (k & Hk & Hedits).
  apply lev_least in Hedits. lia.
Qed.

Lemma edits_lengths u v n :
  edits u v n → length u ≤ n + length v ∧ length v ≤ n + length u.
Proof. induction 1; simpl; lia. Qed.

Lemma lev_app_l p u v : lev (p ++ u) (p ++ v) = lev u v.
Proof.
  induction p as [|x p IHp]; [done|]. simpl app.
  by rewrite lev_cons, bool_decide_eq_true_2.
Qed.

(** X1. [levenshtein] returns 0 exactly on two equal strings. *)
Theorem levenshtein_zero_iff_equal (a b : str) :
  levenshtein a b = Some 0 ↔ a = b.
Proof.
  rewrite levenshtein_lev'. rewrite <- lev_zero. split; [by intros [= ?]|congruence].
Qed.

(** X2. The distances [levenshtein] returns obey the triangle inequality:
    going from [a] to [c] never costs more than going through any [b]. *)
Theorem levenshtein_triangle (a b c : str) :
  ∃ dab dbc dac,
    levenshtein a b = Some dab ∧ levenshtein b c = Some dbc
    ∧ levenshtein a c = Some dac ∧ dac ≤ dab + dbc.
Proof.
  exists (lev a b), (lev b c), (lev a c).
  rewrite !levenshtein_lev'. repeat split. apply lev_triangle.
Qed.

(** X3. The distance is at least the difference of the two lengths. *)
Theorem levenshtein_length_difference (a b : str) :
  ∃ d, levenshtein a b = Some d
       ∧ length a ≤ d + length b ∧ length b ≤ d + length a.
Proof.
  exists (lev a b). split; [apply levenshtein_lev'|].
  apply edits_lengths, lev_edits.
Qed.

(** X4. A prefix or a suffix the two strings share does not count: the
    distance is that of what remains. *)
Theorem levenshtein_shared_affix (p a b : str) :
  levenshtein (p ++ a) (p ++ b) = levenshtein a b
  ∧ levenshtein (a ++ p) (b ++ p) = levenshtein a b.
Proof.
  split; [by rewrite !levenshtein_lev', lev_app_l|].
  by rewrite !levenshtein_lev, !rev_app_distr, lev_app_l.
Qed.

(** X5. One more unit at the end of either string moves the distance by at
    most one, up or down. *)
Theorem levenshtein_one_more_unit (a b : str) (c : ascii) :
  ∃ d da db,
    levenshtein a b = Some d
    ∧ levenshtein (a ++ [c]) b = Some da ∧ levenshtein a (b ++ [c]) = Some db
    ∧ da ≤ S d ∧ d ≤ S da ∧ db ≤ S d ∧ d ≤ S db.
Proof.
  exists (lev (rev a) (rev b)), (lev (rev (a ++ [c])) (rev b)),
         (lev (rev a) (rev (b ++ [c]))).
  rewrite !levenshtein_lev, !rev_unit. do 3 (split; [done|]).
  pose proof (lev_cons_l c (rev a) (rev b)).
  pose proof (lev_cons_r c (rev a) (rev b)).
  pose proof (lev_step (length (rev a) + length (rev b)) (rev a) (rev b) c
                ltac:(lia)) as [_ ?].
  pose proof (lev_step (length (rev b) + length (rev a)) (rev b) (rev a) c
                ltac:(lia)) as [_ Hs].
  rewrite (lev_sym (rev b) (rev a)), (lev_sym (rev b) (c :: rev a)) in Hs.
  lia.
Qed.

Lemma percentage_hundred L d :
  0 < L → d ≤ L → (percentage L d == 100)%Q → d = 0.
Proof.
  intros HL Hd Heq. destruct (decide (d = 0)) as [|Hpos]; [done|exfalso].
  unfold percentage in Heq.
  assert (HLq : (0 < inject_Z (Z.of_nat L))%Q).
  { change 0%Q with (inject_Z 0). rewrite <- Zlt_Qlt. lia. }
  assert (Hdq : (0 < inject_Z (Z.of_nat d))%Q).
  { change 0%Q with (inject_Z 0). rewrite <- Zlt_Qlt. lia. }
  set (l := inject_Z (Z.of_nat L)) in *. set (e := inject_Z (Z.of_nat d)) in *.
  assert (Hlt : ((l - e) / l < 1)%Q).
  { apply Qlt_shift_div_r; [done|]. lra. }
  lra.
Qed.

(** X6. [calculateSimilarity] gives 100 for two equal strings only. *)
Theorem calculateSimilarity_hundred_iff_equal (a b : str) :
  ∃ sim, calculateSimilarity a b = Some sim ∧ ((sim == 100)%Q ↔ a = b).
Proof.
  eexists. split; [apply calculateSimilarity_lev|].
  case_bool_decide as HL.
  - split; [intros _|done]. destruct a, b; simpl in HL; try lia. done.
  - split.
    + intros Heq. apply percentage_hundred in Heq; [|lia|apply lev_le_max].
      by apply lev_zero.
    + intros ->. rewrite lev_refl. apply percentage_zero. lia.
Qed.

(** ** Normalization *)








Lemma filter_fixed {A : Type} (P : A → Prop) `{!∀ x, Decision (P x)} (l : list A) :
  Forall P l → filter P l = l.
Proof.
  induction 1 as [|x l Hx _ IH]; [done|]. by rewrite filter_cons_True, IH.
Qed.



Lemma getPronunciationFeedback_normalize targetText t1 t2 :
  t1 ≠ [] → t2 ≠ [] → normalize t1 = normalize t2 →
  getPronunciationFeedback targetText (Some t1)
  = getPronunciationFeedback targetText (Some t2).
Proof.
  intros H1 H2 Heq. destruct t1 as [|c1 t1], t2 as [|c2 t2]; try done.
  unfold getPronunciationFeedback. by rewrite Heq.
Qed.

(** X8. For a pronunciation question the outcome of a check depends on the
    transcript through its normalization only: two non-empty transcripts
    with the same normalization (differing in case, in the listed
    punctuation, in white space at the ends) get the same verdict, the same
    feedback and the same effects. *)
Theorem handleCheck_transcript_normalized st1 st2 data currentQ t1 t2 :
  lesson st1 = Some data → lesson st2 = Some data →
  currentIndex st1 = currentIndex st2 →
  questions data !! currentIndex st1 = Some currentQ →
  type currentQ = Pronunciation →
  sensitivity st1 = sensitivity st2 →
  spokenText st1 = Some t1 → spokenText st2 = Some t2 →
  t1 ≠ [] → t2 ≠ [] → normalize t1 = normalize t2 →
  ∃ st1' st2' effects,
    handleCheck st1 = Some (st1', effects)
    ∧ handleCheck st2 = Some (st2', effects)
    ∧ status st1' = status st2'
    ∧ feedback st1' = feedback st2'.
Proof.
  intros Hl1 Hl2 Hi Hq Hty Hs Ht1 Ht2 Hne1 Hne2 Heq.
  destruct (handleCheck_pronunciation st1 data currentQ Hl1 Hq Hty)
    as (sim1 & fb1 & Hsim1 & Hfb1 & Hrun1).
  { rewrite Ht1. by destruct t1. }
  destruct (handleCheck_pronunciation st2 data currentQ Hl2) as
    (sim2 & fb2 & Hsim2 & Hfb2 & Hrun2); [congruence|done| |].
  { rewrite Ht2. by destruct t2. }
  rewrite Ht1 in Hsim1, Hfb1, Hrun1. rewrite Ht2 in Hsim2, Hfb2, Hrun2.
  change (default [] (Some t1)) with t1 in *.
  change (default [] (Some t2)) with t2 in *.
  rewrite <- Hs, <- Heq in Hrun2. rewrite <- Heq, Hsim1 in Hsim2.
  assert (sim2 = sim1) as -> by congruence.
  rewrite (getPronunciationFeedback_normalize _ t1 t2 Hne1 Hne2 Heq), Hfb2 in Hfb1.
  assert (fb2 = fb1) as -> by congruence.
  unfold conclude in Hrun1, Hrun2.
  destruct (_ || _ || Qle_bool _ _);
    eexists _, _, _; (split; [exact Hrun1|split; [exact Hrun2|split; reflexivity]]).
Qed.

Lemma handleCheck_transcript_normalized_witness :
  normalize (lit "  Good Morning!") = normalize (lit "good morning")
  ∧ ∃ st1' st2' effects,
      handleCheck (onresult (lit "  Good Morning!")
                     (startLesson (pronunciationQuestion (lit "good morning"))))
      = Some (st1', effects)
      ∧ handleCheck (onresult (lit "good morning")
                       (startLesson (pronunciationQuestion (lit "good morning"))))
        = Some (st2', effects)
      ∧ status st1' = status st2'.
Proof.
  split; [reflexivity|].
  destruct (handleCheck_transcript_normalized
              (onresult (lit "  Good Morning!")
                 (startLesson (pronunciationQuestion (lit "good morning"))))
              (onresult (lit "good morning")
                 (startLesson (pronunciationQuestion (lit "good morning"))))
              _ _ (lit "  Good Morning!") (lit "good morning")
              eq_refl eq_refl eq_refl eq_refl eq_refl eq_refl eq_refl eq_refl)
    as (st1' & st2' & effects & H1 & H2 & Hs & _); [done|done|reflexivity|].
  exists st1', st2', effects. split; [exact H1|]. split; [exact H2|exact Hs].
Defined.

Lemma threshold_ordered sim :
  (Qle_bool (threshold Hard) sim = true → Qle_bool (threshold Medium) sim = true)
  ∧ (Qle_bool (threshold Medium) sim = true
     → Qle_bool (threshold Easy) sim = true).
Proof. rewrite !Qle_bool_iff. simpl. split; intros; lra. Qed.

(** X9. The three sensitivities are ordered: for the same question and the
    same non-empty transcript, what passes under Hard passes under Medium,
    and what passes under Medium passes under Easy. *)
Theorem sensitivity_monotone st data currentQ t :
  lesson st = Some data → questions data !! currentIndex st = Some currentQ →
  type currentQ = Pronunciation →
  spokenText st = Some t → t ≠ [] →
  ∃ easy medium hard e1 e2 e3,
    handleCheck (setSensitivity Easy st) = Some (easy, e1)
    ∧ handleCheck (setSensitivity Medium st) = Some (medium, e2)
    ∧ handleCheck (setSensitivity Hard st) = Some (hard, e3)
    ∧ (status hard = correct → status medium = correct)
    ∧ (status medium = correct → status easy = correct).
Proof.
  intros Hl Hq Hty Ht Hne.
  assert (Hin : ∀ s, truthy (spokenText (setSensitivity s st))
                     || truthy (selectedOption (setSensitivity s st)) = true).
  { intros s. simpl. rewrite Ht. by destruct t. }
  destruct (handleCheck_pronunciation (setSensitivity Easy st) data currentQ
              Hl Hq Hty (Hin Easy)) as (simE & fbE & HsimE & _ & HrunE).
  destruct (handleCheck_pronunciation (setSensitivity Medium st) data currentQ
              Hl Hq Hty (Hin Medium)) as (simM & fbM & HsimM & _ & HrunM).
  destruct (handleCheck_pronunciation (setSensitivity Hard st) data currentQ
              Hl Hq Hty (Hin Hard)) as (simH & fbH & HsimH & _ & HrunH).
  cbn [spokenText sensitivity setSensitivity] in *.
  rewrite HsimE in HsimM, HsimH.
  assert (simM = simE) as -> by congruence.
  assert (simH = simE) as -> by congruence.
  eexists _, _, _, _, _, _.
  split; [rewrite HrunE; apply f_equal, surjective_pairing|].
  split; [rewrite HrunM; apply f_equal, surjective_pairing|].
  split; [rewrite HrunH; apply f_equal, surjective_pairing|].
  rewrite !conclude_status.
  destruct (bool_decide (normalize (default [] (spokenText st))
                         = normalize (correctAnswer currentQ))); [done|].
  cbn [orb andb bool_decide decide_rel]. 
  rewrite (bool_decide_eq_false_2 (Medium = Easy)) by done.
  rewrite (bool_decide_eq_false_2 (Hard = Easy)) by done.
  rewrite (bool_decide_eq_true_2 (Easy = Easy)) by done.
  cbn [orb andb].
  destruct (threshold_ordered simE) as [HHM HME].
  destruct (Qle_bool (threshold Hard) simE);
    destruct (Qle_bool (threshold Medium) simE);
    destruct (Qle_bool (threshold Easy) simE);
    rewrite ?orb_true_r, ?orb_false_r; split; intros; try done;
    try (by specialize (HHM eq_refl)); try (by specialize (HME eq_refl)).
Qed.

Lemma sensitivity_monotone_witness :
  ∃ easy medium hard e1 e2 e3,
    handleCheck (setSensitivity Easy (greetingEveryone Medium)) = Some (easy, e1)
    ∧ handleCheck (setSensitivity Medium (greetingEveryone Medium))
      = Some (medium, e2)
    ∧ handleCheck (setSensitivity Hard (greetingEveryone Medium)) = Some (hard, e3)
    ∧ (status hard = correct → status medium = correct)
    ∧ (status medium = correct → status easy = correct).
Proof.
  apply (sensitivity_monotone (greetingEveryone Medium) _ _
           (lit "good morning everyone") eq_refl eq_refl eq_refl eq_refl).
  discriminate.
Defined.

(** ** Feedback and verdict *)

Lemma compareWords_message targetWords spokenWords n :
  ∀ i fb, compareWords targetWords spokenWords i n = Some fb →
          fb ≠ Perfect ∧ fb ≠ NothingHeard.
Proof.
  induction n as [|n IHn]; intros i fb; simpl.
  - by intros [= <-].
  - case_bool_decide; [apply IHn|].
    destruct (targetWords !! i) as [x|]; [|done].
    destruct (spokenWords !! i) as [y|]; [|done]. simpl.
    destruct (levenshtein x y) as [d|]; [|done]. simpl.
    destruct (d <=? 2); by intros [= <-].
Qed.

Lemma getPronunciationFeedback_message targetText t fb :
  t ≠ [] → getPronunciationFeedback targetText (Some t) = Some fb →
  fb ≠ NothingHeard ∧ (fb = Perfect ↔ normalize targetText = normalize t).
Proof.
  intros Hne. destruct t as [|c t]; [done|]. unfold getPronunciationFeedback.
  case_bool_decide as Heq; [by intros [= <-]|].
  assert (Hrest : ∀ o : option Message,
            (∀ fb', o = Some fb' → fb' ≠ Perfect ∧ fb' ≠ NothingHeard) →
            o = Some fb →
            fb ≠ NothingHeard ∧ (fb = Perfect ↔ normalize targetText = normalize (c :: t))).
  { intros o Ho Hfb. destruct (Ho fb Hfb). split; [done|]. split; done. }
  apply Hrest. intros fb'.
  destruct (List.find _ _) as [[|c' w]|].
  2: by intros [= <-].
  all: destruct (2 <? _)%Z; [by intros [= <-]|apply compareWords_message].
Qed.

(** X10. After a check of a pronunciation question with a non-empty
    transcript, the stored feedback is the perfect-pronunciation sentence
    exactly when the two normalized strings are equal, it is never the
    nothing-heard sentence, and the perfect-pronunciation sentence never
    comes with the verdict "incorrect". *)
Theorem perfect_feedback_iff_exact st data currentQ t :
  lesson st = Some data → questions data !! currentIndex st = Some currentQ →
  type currentQ = Pronunciation →
  spokenText st = Some t → t ≠ [] →
  ∃ st' effects fb,
    handleCheck st = Some (st', effects)
    ∧ feedback st' = Some fb
    ∧ fb ≠ NothingHeard
    ∧ (fb = Perfect ↔ normalize t = normalize (correctAnswer currentQ))
    ∧ (fb = Perfect → status st' = correct).
Proof.
  intros Hl Hq Hty Ht Hne.
  destruct (handleCheck_pronunciation st data currentQ Hl Hq Hty)
    as (sim & fb & Hsim & Hfb & Hrun).
  { rewrite Ht. by destruct t. }
  rewrite Ht in Hfb, Hrun. change (default [] (Some t)) with t in Hrun.
  destruct (getPronunciationFeedback_message _ _ _ Hne Hfb) as [Hnot Hperfect].
  eexists _, _, fb. split; [rewrite Hrun; apply f_equal, surjective_pairing|].
  rewrite conclude_feedback, conclude_status.
  split; [done|]. split; [done|].
  split; [rewrite Hperfect; split; congruence|].
  intros Heq%Hperfect.
  by rewrite (bool_decide_eq_true_2 (normalize t = normalize (correctAnswer currentQ)))
    by congruence.
Qed.

Lemma perfect_feedback_iff_exact_witness :
  ∃ st' effects fb,
    handleCheck happyWithoutVery = Some (st', effects)
    ∧ feedback st' = Some fb
    ∧ fb ≠ Perfect.
Proof.
  destruct (perfect_feedback_iff_exact happyWithoutVery _ _ (lit "I am happy today")
              eq_refl eq_refl eq_refl eq_refl)
    as (st' & effects & fb & Hrun & Hfb & _ & Hiff & _); [discriminate|].
  exists st', effects, fb. split; [exact Hrun|]. split; [exact Hfb|].
  intros Hp. apply Hiff in Hp. vm_compute in Hp. discriminate.
Defined.

(** X11. A word-builder question has no guard for an empty answer area: a
    check with no tile placed forms the empty word, which is "incorrect"
    and costs a heart whenever the expected word is not empty. *)
Theorem wordBuilder_without_tiles st data currentQ :
  lesson st = Some data → questions data !! currentIndex st = Some currentQ →
  type currentQ = WordBuilder →
  builtWordIndices st = [] → correctAnswer currentQ ≠ [] →
  ∃ st',
    handleCheck st = Some (st', [ReduceHearts; PlayClick])
    ∧ status st' = incorrect
    ∧ selectedOption st' = Some []
    ∧ score st' = score st.
Proof.
  intros Hl Hq Hty Hb Hne. unfold handleCheck.
  rewrite Hl. cbn [mbind option_bind]. rewrite Hq. cbn [mbind option_bind].
  rewrite Hty, Hb. cbn [map concat].
  rewrite bool_decide_eq_false_2 by congruence.
  eexists. split; [reflexivity|]. done.
Qed.

Lemma wordBuilder_without_tiles_witness :
  ∃ st',
    handleCheck (startLesson helpfulQuestion) = Some (st', [ReduceHearts; PlayClick])
    ∧ status st' = incorrect.
Proof.
  destruct (wordBuilder_without_tiles (startLesson helpfulQuestion) _ helpfulQuestion
              eq_refl eq_refl eq_refl eq_refl)
    as (st' & Hrun & Hstatus & _); [discriminate|].
  exists st'. split; [exact Hrun|exact Hstatus].
Defined.

Lemma conclude_frame isCorrect st :
  lesson (conclude isCorrect st).1 = lesson st
  ∧ currentIndex (conclude isCorrect st).1 = currentIndex st
  ∧ spokenText (conclude isCorrect st).1 = spokenText st
  ∧ builtWordIndices (conclude isCorrect st).1 = builtWordIndices st
  ∧ sensitivity (conclude isCorrect st).1 = sensitivity st
  ∧ score (conclude isCorrect st).1 = (if isCorrect then score st + 10 else score st).
Proof. by destruct isCorrect. Qed.

Lemma conclude_accounting isCorrect st0 st st' effects :
  lesson st0 = lesson st → currentIndex st0 = currentIndex st →
  spokenText st0 = spokenText st → builtWordIndices st0 = builtWordIndices st →
  sensitivity st0 = sensitivity st → score st0 = score st →
  conclude isCorrect st0 = (st', effects) →
  (lesson st' = lesson st ∧ currentIndex st' = currentIndex st
   ∧ spokenText st' = spokenText st
   ∧ builtWordIndices st' = builtWordIndices st
   ∧ sensitivity st' = sensitivity st)
  ∧ ((st' = st ∧ effects = [])
     ∨ (status st' = correct ∧ score st' = score st + 10 ∧ effects = [PlayPop])
     ∨ (status st' = incorrect ∧ score st' = score st
        ∧ effects = [ReduceHearts; PlayClick])).
Proof.
  intros H1 H2 H3 H4 H5 H6 Heq.
  destruct isCorrect; simpl in Heq; injection Heq as <- <-; simpl.
  - split; [by repeat split|]. right. left. repeat split. by rewrite H6.
  - split; [by repeat split|]. right. right. by repeat split.
Qed.

(** The ways a run of [handleCheck] ends: at a bare [return], or through the
    common tail on a state that differs from the initial one in the
    feedback and the selected option at most. *)
Lemma handleCheck_cases st st' effects :
  handleCheck st = Some (st', effects) →
  (st' = st ∧ effects = [])
  ∨ ∃ isCorrect st0,
      lesson st0 = lesson st ∧ currentIndex st0 = currentIndex st
      ∧ spokenText st0 = spokenText st
      ∧ builtWordIndices st0 = builtWordIndices st
      ∧ sensitivity st0 = sensitivity st ∧ score st0 = score st
      ∧ conclude isCorrect st0 = (st', effects).
Proof.
  intros Hrun. unfold handleCheck in Hrun.
  destruct (lesson st) as [data|] eqn:Hl; [|left; by injection Hrun as <- <-].
  cbn [mbind option_bind] in Hrun.
  destruct (questions data !! currentIndex st) as [currentQ|]; [|done].
  cbn [mbind option_bind] in Hrun.
  destruct (type currentQ).
  1-3: destruct (negb (truthy (selectedOption st)));
       [left; by injection Hrun as <- <-|];
       injection Hrun as Hrun; right; eexists _, _;
       split_and!; [..|exact Hrun]; by simpl.
  - destruct (negb (truthy (spokenText st)) && negb (truthy (selectedOption st)));
      [left; by injection Hrun as <- <-|].
    destruct (calculateSimilarity _ _) as [sim|]; [|done].
    cbn [mbind option_bind] in Hrun.
    destruct (getPronunciationFeedback _ _) as [fb|]; [|done].
    cbn [mbind option_bind] in Hrun. injection Hrun as Hrun.
    right. eexists _, _. split_and!; [..|exact Hrun]; by simpl.
  - injection Hrun as Hrun. right. eexists _, _.
    split_and!; [..|exact Hrun]; by simpl.
Qed.

(** X12. Whatever the question, a run of [handleCheck] that completes does
    one of three things: nothing at all (state unchanged, no effect); or it
    sets the status to "correct", adds 10 to the score and plays the pop
    sound; or it sets the status to "incorrect", leaves the score and calls
    [reduceHearts] once.  It never changes the lesson, the position in it,
    the transcript, the chosen tiles or the sensitivity. *)
Theorem handleCheck_accounting st st' effects :
  handleCheck st = Some (st', effects) →
  (lesson st' = lesson st ∧ currentIndex st' = currentIndex st
   ∧ spokenText st' = spokenText st
   ∧ builtWordIndices st' = builtWordIndices st
   ∧ sensitivity st' = sensitivity st)
  ∧ ((st' = st ∧ effects = [])
     ∨ (status st' = correct ∧ score st' = score st + 10 ∧ effects = [PlayPop])
     ∨ (status st' = incorrect ∧ score st' = score st
        ∧ effects = [ReduceHearts; PlayClick])).
Proof.
  intros Hrun.
  destruct (handleCheck_cases st st' effects Hrun)
    as [[-> ->]|(b & st0 & H1 & H2 & H3 & H4 & H5 & H6 & Hc)].
  - split; [done|]. by left.
  - by apply (conclude_accounting b st0).
Qed.

Lemma handleCheck_accounting_witness :
  ∃ st', handleCheck happyExclaimed = Some (st', [PlayPop])
         ∧ score st' = score happyExclaimed + 10
         ∧ spokenText st' = spokenText happyExclaimed.
Proof.
  eexists. split; [by vm_compute|].
  destruct (handleCheck_accounting happyExclaimed _ [PlayPop] eq_refl)
    as [(_ & _ & Hspoken & _) [[_ ?]|[(_ & Hscore & _)|(_ & _ & ?)]]];
    try discriminate.
  split; [exact Hscore|exact Hspoken].
Defined.

(** ** Tiles *)

(** X13. The answer area never holds a tile twice: a click on any tile, in
    the pool or in the answer area, keeps the chosen indices free of
    repetitions. *)
Theorem handleTileClick_NoDup (index : nat) (isSelectedArea : bool) (st : State) :
  NoDup (builtWordIndices st) →
  NoDup (builtWordIndices (handleTileClick index isSelectedArea st)).
Proof.
  intros Hnd. unfold handleTileClick.
  case_bool_decide as Hidle; [|done]. simpl.
  destruct isSelectedArea; simpl.
  - by apply NoDup_filter.
  - case_bool_decide as Hin; simpl; [done|].
    apply NoDup_app. split; [done|]. split; [|apply NoDup_singleton].
    intros x Hx ->%list_elem_of_singleton. done.
Qed.

Lemma handleTileClick_NoDup_witness :
  NoDup (builtWordIndices (handleTileClick 3 false helpfulScrambled)).
Proof.
  apply handleTileClick_NoDup. vm_compute.
  repeat (constructor; [intros H; repeat (apply elem_of_cons in H as [H|H]; [discriminate|]); by apply elem_of_nil in H|]).
  constructor.
Defined.

Lemma filter_not_elem_of (index : nat) (l : list nat) :
  index ∉ l → filter (fun i => i ≠ index) l = l.
Proof.
  intros Hl. apply filter_fixed. apply Forall_forall. intros x Hx ->. done.
Qed.

(** X14. While the question is open, a pool tile that is placed and then
    clicked in the answer area leaves the state exactly as it was; and a
    tile already placed is not placed again. *)
Theorem handleTileClick_undo (index : nat) (st : State) :
  status st = idle →
  (index ∉ builtWordIndices st →
   handleTileClick index true (handleTileClick index false st) = st)
  ∧ (index ∈ builtWordIndices st → handleTileClick index false st = st).
Proof.
  intros Hidle. split.
  - intros Hout. unfold handleTileClick.
    rewrite Hidle, (bool_decide_eq_true_2 (idle = idle)) by done. cbn [negb].
    rewrite (bool_decide_eq_false_2 (index ∈ builtWordIndices st)) by done.
    cbn [negb status setBuiltWordIndices].
    rewrite Hidle, (bool_decide_eq_true_2 (idle = idle)) by done. cbn [negb].
    destruct st as [l i s b sp stt sc se f]. unfold setBuiltWordIndices.
    simpl in *. f_equal.
    rewrite filter_app, (filter_not_elem_of index b Hout).
    rewrite filter_cons_False by (intros H; by apply H).
    by rewrite filter_nil, app_nil_r.
  - intros Hin. unfold handleTileClick.
    rewrite Hidle, (bool_decide_eq_true_2 (idle = idle)) by done. cbn [negb].
    by rewrite (bool_decide_eq_true_2 (index ∈ builtWordIndices st)) by done.
Qed.

Lemma handleTileClick_undo_witness :
  handleTileClick 2 true (handleTileClick 2 false (startLesson helpfulQuestion))
  = startLesson helpfulQuestion.
Proof.
  apply (handleTileClick_undo 2 (startLesson helpfulQuestion) eq_refl).
  by intros ?%elem_of_nil.
Defined.

(** X15. Once [handleCheck] has given a verdict, the submission is frozen:
    clicks on tiles and on answer options leave the state as it is. *)
Theorem submission_frozen_after_verdict st st' effects :
  handleCheck st = Some (st', effects) → effects ≠ [] →
  ∀ index isSelectedArea choice,
    handleTileClick index isSelectedArea st' = st'
    ∧ clickOption choice st' = st'.
Proof.
  intros Hrun Heff index isSelectedArea choice.
  assert (Hstatus : status st' ≠ idle).
  { unfold handleCheck in Hrun.
    assert (Hc : ∀ b st0, Some (conclude b st0) = Some (st', effects) →
                          status st' ≠ idle).
    { intros b st0 [= Heq]. destruct b; simpl in Heq; by injection Heq as <- <-. }
    destruct (lesson st) as [data|]; [|by injection Hrun as <- <-].
    cbn [mbind option_bind] in Hrun.
    destruct (questions data !! currentIndex st) as [currentQ|]; [|done].
    cbn [mbind option_bind] in Hrun.
    destruct (type currentQ).
    1-3: destruct (negb (truthy (selectedOption st)));
         [by injection Hrun as <- <-|by eapply Hc].
    - destruct (negb (truthy (spokenText st)) && negb (truthy (selectedOption st)));
        [by injection Hrun as <- <-|].
      destruct (calculateSimilarity _ _) as [sim|]; [|done].
      cbn [mbind option_bind] in Hrun.
      destruct (getPronunciationFeedback _ _) as [fb|]; [|done].
      cbn [mbind option_bind] in Hrun. by eapply Hc.
    - by eapply Hc. }
  unfold handleTileClick, clickOption.
  by rewrite (bool_decide_eq_false_2 (status st' = idle)) by done.
Qed.

Lemma submission_frozen_after_verdict_witness :
  ∃ st', handleCheck helpfulScrambled = Some (st', [ReduceHearts; PlayClick])
         ∧ handleTileClick 3 true st' = st'.
Proof.
  eexists. split; [by vm_compute|].
  apply (submission_frozen_after_verdict helpfulScrambled _ [ReduceHearts; PlayClick]
           eq_refl ltac:(discriminate) 3 true []).
Defined.

Lemma tapTiles_app (indices : list nat) :
  ∀ st, status st = idle →
        NoDup (builtWordIndices st ++ indices) →
        builtWordIndices (tapTiles indices st) = builtWordIndices st ++ indices
        ∧ status (tapTiles indices st) = idle.
Proof.
  unfold tapTiles.
  induction indices as [|i indices IH]; intros st Hidle Hnd; simpl.
  - by rewrite app_nil_r.
  - assert (Hi : i ∉ builtWordIndices st).
    { apply NoDup_app in Hnd as (_ & Hdisj & _). intros Hin.
      apply (Hdisj i Hin). apply elem_of_cons. by left. }
    assert (Hstep : handleTileClick i false st
                    = setBuiltWordIndices (fun prev => prev ++ [i]) st).
    { unfold handleTileClick.
      rewrite Hidle, (bool_decide_eq_true_2 (idle = idle)) by done. cbn [negb].
      by rewrite (bool_decide_eq_false_2 (i ∈ builtWordIndices st)) by done. }
    rewrite Hstep.
    destruct (IH (setBuiltWordIndices (fun prev => prev ++ [i]) st)) as [Hb Hs].
    + done.
    + simpl. by rewrite <- app_assoc.
    + rewrite Hb. simpl. by rewrite <- app_assoc.
Qed.

(** X16. Tapping distinct pool tiles one after the other on an open question
    with an empty answer area records exactly these indices, in the order
    of the taps. *)
Theorem tapTiles_records_order (indices : list nat) (st : State) :
  status st = idle → builtWordIndices st = [] → NoDup indices →
  builtWordIndices (tapTiles indices st) = indices.
Proof.
  intros Hidle Hempty Hnd.
  destruct (tapTiles_app indices st Hidle) as [Hb _]; [by rewrite Hempty|].
  by rewrite Hb, Hempty.
Qed.

Lemma tapTiles_records_order_witness :
  builtWordIndices (tapTiles [6; 0; 2] (startLesson helpfulQuestion)) = [6; 0; 2].
Proof.
  apply tapTiles_records_order; [reflexivity|reflexivity|].
  repeat (constructor; [intros H; repeat (apply elem_of_cons in H as [H|H]; [discriminate|]); by apply elem_of_nil in H|]).
  constructor.
Defined.

(** ** Moving on *)

(** X17. [handleNext] never leaves the lesson: if the current index is
    within the list of questions it stays within it, the lesson itself is
    kept, and without hearts the runner does not move at all but raises the
    game-over flag. *)
Theorem handleNext_in_range (hearts : Z) (r : Runner) data :
  lesson (cells r) = Some data →
  currentIndex (cells r) < length (questions data) →
  lesson (cells (handleNext hearts r)) = Some data
  ∧ currentIndex (cells (handleNext hearts r)) < length (questions data)
  ∧ currentIndex (cells r) ≤ currentIndex (cells (handleNext hearts r))
  ∧ (hearts = 0%Z →
     cells (handleNext hearts r) = cells r ∧ isGameOver (handleNext hearts r) = true).
Proof.
  intros Hl Hi. unfold handleNext. case_bool_decide as Hh; simpl.
  - by repeat split.
  - rewrite Hl. destruct (_ <? _)%Z eqn:Hlt; simpl.
    + apply Z.ltb_lt in Hlt. repeat split; try done; lia.
    + by repeat split.
Qed.

Lemma handleNext_in_range_witness :
  currentIndex (cells (handleNext 3 (handleNext 3 twoQuestions))) < 2.
Proof.
  destruct (handleNext_in_range 3 (handleNext 3 twoQuestions)
              {| topic := lit "greetings"; title := [];
                 questions := [blankQuestion; helpfulQuestion] |}
              eq_refl ltac:(vm_compute; lia)) as (_ & H & _).
  exact H.
Defined.

(** X18. With hearts left and a further question to come, [handleNext]
    moves to that question with a fresh submission (no option, no
    transcript, no tile, no feedback, status idle) and keeps the score and
    the sensitivity; a check pressed right then does nothing unless the new
    question is a word builder. *)
Theorem handleNext_fresh_question (hearts : Z) (r : Runner) data nextQ :
  hearts ≠ 0%Z →
  lesson (cells r) = Some data →
  questions data !! S (currentIndex (cells r)) = Some nextQ →
  let st := cells (handleNext hearts r) in
  currentIndex st = S (currentIndex (cells r))
  ∧ selectedOption st = None ∧ spokenText st = None
  ∧ builtWordIndices st = [] ∧ feedback st = None ∧ status st = idle
  ∧ score st = score (cells r) ∧ sensitivity st = sensitivity (cells r)
  ∧ isLessonComplete (handleNext hearts r) = isLessonComplete r
  ∧ (type nextQ ≠ WordBuilder → handleCheck st = Some (st, [])).
Proof.
  intros Hh Hl Hq.
  assert (Hlt : (Z.of_nat (currentIndex (cells r))
                 <? Z.of_nat (length (questions data)) - 1)%Z = true).
  { apply Z.ltb_lt. apply lookup_lt_Some in Hq. lia. }
  unfold handleNext. rewrite bool_decide_eq_false_2 by done. rewrite Hl, Hlt.
  cbn zeta. cbn [cells isLessonComplete].
  split; [simpl; lia|]. do 8 (split; [done|]).
  intros Hty. unfold handleCheck. simpl. rewrite Hl. cbn [mbind option_bind].
  replace (currentIndex (cells r) + 1) with (S (currentIndex (cells r))) by lia.
  rewrite Hq. cbn [mbind option_bind]. by destruct (type nextQ).
Qed.

Lemma handleNext_fresh_question_witness :
  currentIndex (cells (handleNext 3 twoQuestions)) = 1
  ∧ selectedOption (cells (handleNext 3 twoQuestions)) = None
  ∧ score (cells (handleNext 3 twoQuestions)) = 10.
Proof.
  destruct (handleNext_fresh_question 3 twoQuestions _ helpfulQuestion
              ltac:(discriminate) eq_refl eq_refl)
    as (Hi & Hsel & _ & _ & _ & _ & Hscore & _).
  split; [exact Hi|]. split; [exact Hsel|exact Hscore].
Defined.

(** X19. The last answer counts twice when it is right: [handleCheck] has
    already added its 10 points to the score when the lesson-complete
    screen adds 10 more for a status "correct", so after a right answer to
    the last question the total shown and passed to [onComplete] is 20
    above the score before that answer, and after a wrong one it is that
    score. *)
Theorem completionScore_after_last_answer hearts st st' effects data flags :
  status st = idle →
  handleCheck st = Some (st', effects) → effects ≠ [] →
  hearts ≠ 0%Z →
  lesson st = Some data → S (currentIndex st) = length (questions data) →
  let r := handleNext hearts
             {| cells := st'; isLessonComplete := false; isGameOver := flags |} in
  isLessonComplete r = true
  ∧ cells r = st'
  ∧ completionScore (cells r)
    = score st + (if bool_decide (status st' = correct) then 20 else 0).
Proof.
  intros Hidle Hrun Heff Hh Hl Hlast.
  assert (Hacc : (lesson st' = lesson st ∧ currentIndex st' = currentIndex st
                  ∧ spokenText st' = spokenText st
                  ∧ builtWordIndices st' = builtWordIndices st
                  ∧ sensitivity st' = sensitivity st)
                 ∧ ((st' = st ∧ effects = [])
                    ∨ (status st' = correct ∧ score st' = score st + 10
                       ∧ effects = [PlayPop])
                    ∨ (status st' = incorrect ∧ score st' = score st
                       ∧ effects = [ReduceHearts; PlayClick]))).
  { destruct (handleCheck_cases st st' effects Hrun)
      as [[-> ->]|(b & st0 & H1 & H2 & H3 & H4 & H5 & H6 & Hc)]; [done|].
    by apply (conclude_accounting b st0). }
  destruct Hacc as [(Hl' & Hi' & _) Hcases].
  assert (Hge : (Z.of_nat (currentIndex st')
                 <? Z.of_nat (length (questions data)) - 1)%Z = false).
  { apply Z.ltb_ge. lia. }
  cbn zeta. unfold handleNext. rewrite bool_decide_eq_false_2 by done.
  cbn [cells]. rewrite Hl', Hl, Hge. cbn [cells isLessonComplete].
  split; [done|]. split; [done|].
  unfold completionScore.
  destruct Hcases as [[-> ->]|[(Hs & Hsc & _)|(Hs & Hsc & _)]]; [done| |].
  - rewrite Hs, Hsc. rewrite bool_decide_eq_true_2 by done. lia.
  - rewrite Hs, Hsc. rewrite bool_decide_eq_false_2 by done. lia.
Qed.

Lemma completionScore_after_last_answer_witness :
  ∃ st',
    handleCheck helpfulInOrder = Some (st', [PlayPop])
    ∧ completionScore
        (cells (handleNext 5 {| cells := st'; isLessonComplete := false;
                                isGameOver := false |}))
      = 20.
Proof.
  eexists. split; [by vm_compute|].
  destruct (completionScore_after_last_answer 5 helpfulInOrder _ [PlayPop]
              {| topic := lit "greetings"; title := [];
                 questions := [helpfulQuestion] |} false
              eq_refl eq_refl ltac:(discriminate) ltac:(discriminate)
              eq_refl eq_refl) as (_ & _ & H).
  exact H.
Defined.

(** ** The question text on screen *)

Lemma splitOn_cons sep u : ∃ w ws, splitOn sep u = w :: ws.
Proof.
  induction u as [|c u (w & ws & IH)]; simpl; [eauto|].
  case_bool_decide; [eauto|]. rewrite IH. eauto.
Qed.

Lemma joinWith_cons sep w ws :
  joinWith sep (w :: ws) = match ws with [] => w | _ => w ++ sep ++ joinWith sep ws end.
Proof. by destruct ws. Qed.

Lemma splitOn_join sep u : joinWith [sep] (splitOn sep u) = u.
Proof.
  induction u as [|c u IH]; [done|]. cbn [splitOn].
  destruct (splitOn_cons sep u) as (w & ws & Heq). rewrite Heq in IH |- *.
  case_bool_decide as Hc.
  - subst c. rewrite joinWith_cons, IH. done.
  - rewrite <- IH. by destruct ws.
Qed.

Lemma splitOn_units sep u w : w ∈ splitOn sep u → sep ∉ w.
Proof.
  revert w. induction u as [|c u IH]; intros w; simpl.
  - intros ->%list_elem_of_singleton. apply not_elem_of_nil.
  - case_bool_decide as Hc.
    + intros [->|Hw]%elem_of_cons; [apply not_elem_of_nil|by apply IH].
    + destruct (splitOn_cons sep u) as (w0 & ws & Heq). rewrite Heq in IH |- *.
      intros [->|Hw]%elem_of_cons.
      * intros [?|Hin]%elem_of_cons; [done|].
        revert Hin. apply IH. apply elem_of_cons. by left.
      * apply IH. apply elem_of_cons. by right.
Qed.

Lemma joinWith_units sep (l : list str) c :
  c ∈ joinWith sep l → c ∈ sep ∨ ∃ w, w ∈ l ∧ c ∈ w.
Proof.
  induction l as [|w ws IH]; [by intros ?%elem_of_nil|].
  rewrite joinWith_cons. destruct ws as [|w' ws].
  - intros Hc. right. exists w. split; [apply elem_of_cons; by left|done].
  - rewrite !elem_of_app. intros [Hc|[Hc|Hc]].
    + right. exists w. split; [apply elem_of_cons; by left|done].
    + by left.
    + destruct (IH Hc) as [?|(w0 & Hw0 & ?)]; [by left|].
      right. exists w0. split; [apply elem_of_cons; by right|done].
Qed.

(** X20. Outside fill-in questions the clickable rendering loses nothing:
    the words, joined by single spaces within a line and the lines joined
    by line feeds, give back the text; and no clickable word contains a
    space or a line feed. *)
Theorem clickable_sentence_roundtrip (text : str) (ty : QuestionType)
    (selected : option str) :
  ty ≠ FillBlank →
  ∃ lines,
    renderClickableSentence text ty selected = ClickableSentence lines
    ∧ joinWith ["010"%char] (map (joinWith [" "%char]) lines) = text
    ∧ ∀ line word, line ∈ lines → word ∈ line →
                   (" "%char ∉ word) ∧ ("010"%char ∉ word).
Proof.
  intros Hty. unfold renderClickableSentence.
  rewrite bool_decide_eq_false_2 by done. eexists. split; [done|]. split.
  - rewrite map_map.
    rewrite (map_ext _ (fun l => l) (fun l => splitOn_join " "%char l)), map_id.
    apply splitOn_join.
  - intros line word Hline Hword.
    apply list_elem_of_In, in_map_iff in Hline as (l & <- & Hl%list_elem_of_In).
    split; [by apply (splitOn_units _ _ _ Hword)|].
    intros Hnl. apply (splitOn_units _ _ _ Hl).
    rewrite <- (splitOn_join " "%char l).
    assert (Hw : "010"%char ∈ joinWith [" "%char] (splitOn " "%char l)
                 ∨ True) by (by right).
    clear Hw. revert Hword Hnl. generalize (splitOn " "%char l). intros ws Hword Hnl.
    induction ws as [|w ws IH]; [by apply elem_of_nil in Hword|].
    rewrite joinWith_cons.
    apply elem_of_cons in Hword as [->|Hword].
    + destruct ws; [done|]. apply elem_of_app. by left.
    + destruct ws as [|w' ws]; [by apply elem_of_nil in Hword|].
      rewrite !elem_of_app. right. right. by apply IH.
Qed.

Lemma clickable_sentence_roundtrip_witness :
  ∃ lines,
    renderClickableSentence (lit "I am  happy") Pronunciation None
    = ClickableSentence lines
    ∧ joinWith ["010"%char] (map (joinWith [" "%char]) lines) = lit "I am  happy".
Proof.
  destruct (clickable_sentence_roundtrip (lit "I am  happy") Pronunciation None
              ltac:(discriminate)) as (lines & H1 & H2 & _).
  exists lines. split; [exact H1|exact H2].
Defined.

Lemma splitBlanks_pieces u :
  blankPieces (splitBlanks u)
  ∧ concat (splitBlanks u) = u
  ∧ (∀ u', u = "_"%char :: u' → ∃ run rest, splitBlanks u = [] :: run :: rest).
Proof.
  induction u as [|c u (Hp & Hc & Hhead)].
  - split; [constructor; apply not_elem_of_nil|]. split; [done|]. by intros ? [=].
  - destruct (decide (c = "_"%char)) as [->|Hund].
    + destruct u as [|c' u].
      * split; [|split; [done|eauto]].
        apply blankPieces_more; [apply not_elem_of_nil|done|by repeat constructor|].
        constructor. apply not_elem_of_nil.
      * destruct (decide (c' = "_"%char)) as [->|Hund'].
        -- destruct (Hhead u eq_refl) as (run & rest & Heq).
           assert (Hstep : splitBlanks ("_"%char :: "_"%char :: u)
                           = [] :: ("_"%char :: run) :: rest).
           { cbn [splitBlanks] in Heq |- *.
             rewrite !(bool_decide_eq_true_2 ("_"%char = "_"%char)) by done.
             rewrite !(bool_decide_eq_true_2 ("_"%char = "_"%char)) in Heq by done.
             by rewrite Heq. }
           rewrite Hstep. rewrite Heq in Hp, Hc.
           split; [|split; [|eauto]].
           ++ inversion Hp; subst. apply blankPieces_more; try done.
              by constructor.
           ++ cbn [concat app] in *. by rewrite Hc.
        -- assert (Hstep : splitBlanks ("_"%char :: c' :: u)
                           = [] :: ["_"%char] :: splitBlanks (c' :: u)).
           { cbn [splitBlanks].
             rewrite (bool_decide_eq_true_2 ("_"%char = "_"%char)) by done.
             by rewrite (bool_decide_eq_false_2 (c' = "_"%char)) by done. }
           rewrite Hstep. split; [|split; [|eauto]].
           ++ apply blankPieces_more; [apply not_elem_of_nil|done| |done].
              by repeat constructor.
           ++ cbn [concat app]. by rewrite Hc.
    + assert (Hnot : ∀ piece, "_"%char ∉ piece → "_"%char ∉ c :: piece).
      { intros piece Hpiece [?|?]%elem_of_cons; [congruence|done]. }
      assert (Hstep : splitBlanks (c :: u)
                      = match splitBlanks u with
                        | piece :: rest => (c :: piece) :: rest
                        | [] => [[c]]
                        end).
      { cbn [splitBlanks]. by rewrite (bool_decide_eq_false_2 (c = "_"%char)) by done. }
      rewrite Hstep. split; [|split; [|by intros ? [= ? ?]]].
      * inversion Hp as [piece Hpiece Heq|piece run rest Hpiece Hne Hrun Hrest Heq].
        -- constructor. by apply Hnot.
        -- apply blankPieces_more; try done. by apply Hnot.
      * inversion Hp as [piece Hpiece Heq|piece run rest Hpiece Hne Hrun Hrest Heq];
          rewrite <- Heq in Hc; cbn [concat app] in *; by rewrite Hc.
Qed.

Lemma startsWith_underscore piece :
  startsWith piece ["_"%char] = true ↔ ∃ rest, piece = "_"%char :: rest.
Proof. rewrite startsWith_spec. simpl. done. Qed.

Lemma blankPieces_spans (shown : option str) (pieces : list str) :
  blankPieces pieces →
  Forall2 (fun piece span =>
             (span = TextSpan piece ∧ "_"%char ∉ piece)
             ∨ (span = BlankSpan shown
                ∧ piece ≠ [] ∧ Forall (fun c => c = "_"%char) piece))
          pieces
          (map (fun part => if startsWith part ["_"%char]
                            then BlankSpan shown else TextSpan part) pieces).
Proof.
  assert (Htext : ∀ piece, "_"%char ∉ piece → startsWith piece ["_"%char] = false).
  { intros piece Hpiece. apply not_true_is_false.
    intros [r ->]%startsWith_underscore. apply Hpiece. apply elem_of_cons. by left. }
  induction 1 as [piece Hpiece|piece run rest Hpiece Hne Hrun _ IH]; cbn [map].
  - constructor; [|constructor]. left. by rewrite (Htext piece Hpiece).
  - constructor; [|constructor; [|done]].
    + left. by rewrite (Htext piece Hpiece).
    + right. destruct run as [|c run]; [done|].
      apply Forall_cons in Hrun as Hrun'. destruct Hrun' as [-> _].
      split; [|done].
      replace (startsWith ("_"%char :: run) ["_"%char]) with true; [done|].
      symmetry. apply startsWith_underscore. eauto.
Qed.

(** X21. For a fill-in question the text is cut into pieces that, put
    together again, give the text; the pieces are alternately free of
    underscores and made of underscores only, and the rendering shows the
    former as they are and puts the selected option (or the placeholder) in
    place of each of the latter, so no underscore is shown. *)
Theorem fill_blank_parts (text : str) (selected : option str) :
  ∃ parts,
    renderClickableSentence text FillBlank selected = BlankSentence parts
    ∧ concat (splitBlanks text) = text
    ∧ blankPieces (splitBlanks text)
    ∧ Forall2 (fun piece span =>
                 (span = TextSpan piece ∧ "_"%char ∉ piece)
                 ∨ (span = BlankSpan (if truthy selected then selected else None)
                    ∧ piece ≠ [] ∧ Forall (fun c => c = "_"%char) piece))
              (splitBlanks text) parts.
Proof.
  unfold renderClickableSentence. rewrite bool_decide_eq_true_2 by done.
  eexists. split; [done|].
  destruct (splitBlanks_pieces text) as (Hp & Hc & _).
  split; [done|]. split; [done|]. by apply blankPieces_spans.
Qed.

Lemma forallb_false {A : Type} (f : A → bool) (l : list A) :
  forallb f l = false ↔ ∃ x, x ∈ l ∧ f x = false.
Proof.
  induction l as [|x l IH]; simpl.
  - split; [done|]. by intros (x & ?%elem_of_nil & _).
  - rewrite andb_false_iff, IH. split.
    + intros [Hx|(y & Hy & Hfy)].
      * exists x. split; [apply elem_of_cons; by left|done].
      * exists y. split; [apply elem_of_cons; by right|done].
    + intros (y & [->|Hy]%elem_of_cons & Hfy); [by left|right; eauto].
Qed.

Lemma isLookupUnit_kept c :
  isLookupUnit c && negb (punctuationClass c)
  = isAsciiLetter c || isWhiteSpace c || bool_decide (c = "'"%char).
Proof. destruct c as [[] [] [] [] [] [] [] []]; by vm_compute. Qed.

(** X22. A click on a word starts a dictionary lookup exactly when the word
    without the listed punctuation has a unit that is not white space and
    consists of unaccented Latin letters, white space and apostrophes only;
    the word looked up is the word without that punctuation, so it never
    holds a hyphen, although the filter of the handler lets hyphens
    through. *)
Theorem handleWordClick_lookup (word w : str) :
  handleWordClick word = Some w ↔
  w = stripPunctuation word
  ∧ (∃ c, c ∈ w ∧ isWhiteSpace c = false)
  ∧ (∀ c, c ∈ w →
          isAsciiLetter c = true ∨ isWhiteSpace c = true ∨ c = "'"%char).
Proof.
  unfold handleWordClick.
  set (cleanWord := stripPunctuation word).
  assert (Hblank : bool_decide (cleanWord = []) || forallb isWhiteSpace cleanWord
                   = false ↔ ∃ c, c ∈ cleanWord ∧ isWhiteSpace c = false).
  { rewrite orb_false_iff, bool_decide_eq_false, forallb_false. split.
    - by intros [_ ?].
    - intros (c & Hc & Hws). split; [|by exists c].
      intros Heq. rewrite Heq in Hc. by apply elem_of_nil in Hc. }
  assert (Hunits : forallb isLookupUnit cleanWord = true ↔
                   ∀ c, c ∈ cleanWord →
                        isAsciiLetter c = true ∨ isWhiteSpace c = true ∨ c = "'"%char).
  { rewrite forallb_forall. split.
    - intros Hall c Hc. pose proof (Hall c (proj1 (list_elem_of_In _ _) Hc)) as Hl.
      unfold cleanWord, stripPunctuation in Hc.
      apply list_elem_of_filter in Hc as [Hp _].
      pose proof (isLookupUnit_kept c) as Hk. rewrite Hl, Hp in Hk. simpl in Hk.
      symmetry in Hk. apply orb_true_iff in Hk as [Hk|Hk%bool_decide_eq_true]; [|auto].
      apply orb_true_iff in Hk as [?|?]; auto.
    - intros Hall c Hc%list_elem_of_In. specialize (Hall c Hc).
      unfold cleanWord, stripPunctuation in Hc.
      apply list_elem_of_filter in Hc as [Hp _].
      pose proof (isLookupUnit_kept c) as Hk. rewrite Hp, andb_true_r in Hk.
      rewrite Hk. destruct Hall as [Ha | [Ha | Ha]]; rewrite Ha;
        [done|by rewrite orb_true_r|].
      by rewrite bool_decide_eq_true_2, orb_true_r. }
  destruct (bool_decide (cleanWord = []) || forallb isWhiteSpace cleanWord) eqn:Hb.
  - split; [done|]. intros (-> & Hex & _). apply Hblank in Hex. congruence.
  - destruct (forallb isLookupUnit cleanWord) eqn:Hl; simpl.
    + split.
      * intros [= <-]. split; [done|]. split; [by apply Hblank|by apply Hunits].
      * by intros (-> & _).
    + split; [done|]. intros (-> & _ & Hall). apply Hunits in Hall. congruence.
Qed.

(** ** Hearts, experience and streak (App.tsx) *)



Lemma uniqueFrom_elem (l : list str) :
  ∀ seen x, x ∈ App.uniqueFrom seen l ↔ x ∈ l ∧ x ∉ seen.
Proof.
  induction l as [|y l IH]; intros seen x; simpl.
  - split; [by intros ?%elem_of_nil|by intros [?%elem_of_nil _]].
  - case_bool_decide as Hy.
    + rewrite IH, elem_of_cons. split; [tauto|].
      intros [[->|?] ?]; [done|tauto].
    + rewrite elem_of_cons, IH, !elem_of_cons. split.
      * intros [->|[? Hx]]; [tauto|]. split; [tauto|]. intros ?. apply Hx. tauto.
      * intros [[->|?] Hx]; [tauto|].
        destruct (decide (x = y)) as [->|?]; [tauto|]. right. split; [done|].
        intros [?|?]; done.
Qed.







(** ** The lesson path (Dashboard) *)

Lemma findIndex_Some {A : Type} (p : A → bool) (l : list A) :
  ∀ i, Dashboard.findIndex p l = Some i →
       (∃ x, l !! i = Some x ∧ p x = true)
       ∧ ∀ j y, j < i → l !! j = Some y → p y = false.
Proof.
  induction l as [|x l IH]; intros i; simpl; [done|].
  destruct (p x) eqn:Hp.
  - intros [= <-]. split; [by exists x|]. intros j y Hj. lia.
  - destruct (Dashboard.findIndex p l) as [i'|]; [|done].
    intros [= <-]. destruct (IH i' eq_refl) as [Hx Hbefore].
    split; [done|]. intros [|j] y Hj; simpl.
    + by intros [= <-].
    + apply Hbefore. lia.
Qed.

Lemma findIndex_None {A : Type} (p : A → bool) (l : list A) :
  Dashboard.findIndex p l = None → ∀ j y, l !! j = Some y → p y = false.
Proof.
  induction l as [|x l IH]; simpl; [done|].
  destruct (p x) eqn:Hp; [done|].
  destruct (Dashboard.findIndex p l); [done|].
  intros _ [|j] y; simpl; [by intros [= <-]|by apply IH].
Qed.

Lemma findIndex_bound {A : Type} (p : A → bool) (l : list A) (n : nat) :
  (∀ j y, j ≤ n → l !! j = Some y → p y = false) →
  ∀ i, Dashboard.findIndex p l = Some i → n < i.
Proof.
  intros Hfalse i Hi. destruct (findIndex_Some p l i Hi) as [(x & Hx & Hp) _].
  destruct (decide (n < i)) as [|Hle]; [done|].
  rewrite (Hfalse i x) in Hp; [done|lia|done].
Qed.

Lemma avatar_before (u : App.UserState) (currentTopics : list str) :
  Dashboard.currentLessonIndex u currentTopics ≤ length currentTopics
  ∧ (∀ j t, j < Dashboard.currentLessonIndex u currentTopics →
            currentTopics !! j = Some t → Dashboard.isCompleted u t = true)
  ∧ (∀ t, currentTopics !! Dashboard.currentLessonIndex u currentTopics = Some t →
          Dashboard.isCompleted u t = false).
Proof.
  unfold Dashboard.currentLessonIndex.
  destruct (Dashboard.findIndex _ currentTopics) as [i|] eqn:Hfind.
  - destruct (findIndex_Some _ _ _ Hfind) as [(x & Hx & Hp) Hbefore].
    split; [apply lookup_lt_Some in Hx; lia|]. split.
    + intros j t Hj Ht. apply negb_false_iff. by apply (Hbefore j).
    + intros t Ht. rewrite Hx in Ht. injection Ht as <-.
      by apply negb_true_iff in Hp.
  - split; [done|]. split.
    + intros j t _ Ht. apply negb_false_iff.
      by apply (findIndex_None _ _ Hfind j).
    + intros t Ht. apply lookup_lt_Some in Ht. lia.
Qed.

(** X26. The node that carries the avatar is the learner's next lesson:
    every topic before it is completed, the topic itself is not, and its
    node is never locked. *)
Theorem avatar_on_next_lesson (u : App.UserState) (currentTopics : list str) :
  let i := Dashboard.currentLessonIndex u currentTopics in
  i ≤ length currentTopics
  ∧ (∀ j t, j < i → currentTopics !! j = Some t →
            Dashboard.isCompleted u t = true)
  ∧ (∀ t, currentTopics !! i = Some t →
          Dashboard.isCompleted u t = false
          ∧ Dashboard.isLocked u currentTopics i = Some false).
Proof.
  cbn zeta. destruct (avatar_before u currentTopics) as (Hlen & Hbefore & Hat).
  split; [done|]. split; [done|].
  intros t Ht. split; [by apply Hat|].
  unfold Dashboard.isLocked.
  destruct (Dashboard.currentLessonIndex u currentTopics) as [|i]; [done|].
  change (0 <? S i) with true. replace (S i - 1) with i by lia.
  destruct (currentTopics !! i) as [previous|] eqn:Hprev.
  - cbn [negb mbind option_bind]. by rewrite (Hbefore i previous) by (lia || done).
  - apply lookup_lt_Some in Ht. apply lookup_ge_None in Hprev. lia.
Qed.

(** X27. Completing the lesson that carries the avatar moves the learner
    on: the topic becomes completed, the node after it is no longer locked,
    every lesson completed before stays completed, and the avatar stands
    on a later node. *)
Theorem completing_unlocks_next (today yesterday : str) (scoreToAdd : Z)
    (app : App.AppState) (currentTopics : list str) (i : nat) (topic : str) :
  App.currentTopic app = Some topic → topic ≠ [] →
  currentTopics !! i = Some topic →
  let u := App.userState app in
  let u' := App.userState (App.handleLessonComplete today yesterday scoreToAdd app) in
  Dashboard.isCompleted u' topic = true
  ∧ Dashboard.isLocked u' currentTopics (S i) = Some false
  ∧ (∀ t, Dashboard.isCompleted u t = true → Dashboard.isCompleted u' t = true)
  ∧ (Dashboard.currentLessonIndex u currentTopics = i →
     i < Dashboard.currentLessonIndex u' currentTopics).
Proof.
  intros Htopic Hne Hi. cbn zeta.
  assert (Hkeys : ∀ t,
    Dashboard.isCompleted
      (App.userState (App.handleLessonComplete today yesterday scoreToAdd app)) t
    = true ↔ Dashboard.isCompleted (App.userState app) t = true ∨ t = topic).
  { intros t. unfold Dashboard.isCompleted. rewrite !bool_decide_eq_true.
    unfold App.handleLessonComplete. simpl. rewrite Htopic.
    destruct topic as [|c topic]; [done|].
    rewrite uniqueFrom_elem, elem_of_app, list_elem_of_singleton.
    unfold App.lessonKey. split.
    - intros [[?|Heq] _]; [by left|right].
      by do 2 apply app_inv_head in Heq.
    - intros [Hin | Heq]; [|rewrite Heq]; (split; [tauto|apply not_elem_of_nil]). }
  assert (Hdone : Dashboard.isCompleted
      (App.userState (App.handleLessonComplete today yesterday scoreToAdd app))
      topic = true) by (apply Hkeys; by right).
  split; [done|]. split; [|split].
  - unfold Dashboard.isLocked. change (0 <? S i) with true.
    replace (S i - 1) with i by lia. rewrite Hi.
    cbn [negb mbind option_bind]. by rewrite Hdone.
  - intros t Ht. apply Hkeys. by left.
  - intros Hcur.
    assert (Hbefore : ∀ j y, j < i → currentTopics !! j = Some y →
                             Dashboard.isCompleted (App.userState app) y = true).
    { intros j y Hj Hy.
      destruct (avatar_before (App.userState app) currentTopics) as (_ & H & _).
      apply (H j); [lia|done]. }
    unfold Dashboard.currentLessonIndex.
    destruct (Dashboard.findIndex _ currentTopics) as [i'|] eqn:Hfind';
      [|by apply lookup_lt_Some in Hi].
    apply (findIndex_bound _ _ i) in Hfind'; [done|].
    intros j y Hj Hy. apply negb_false_iff, Hkeys.
    destruct (decide (j = i)) as [->|Hlt].
    + right. congruence.
    + left. apply (Hbefore j); [lia|done].
Qed.

Lemma completing_unlocks_next_witness :
  Dashboard.isLocked
    (App.userState
       (App.handleLessonComplete (lit "Tue Nov 03 2026") (lit "Mon Nov 02 2026") 30
          {| App.userState := App.initialUserState; App.view := App.ViewLesson;
             App.currentTopic := Some (lit "greetings") |}))
    [lit "greetings"; lit "family"] 1
  = Some false.
Proof.
  destruct (completing_unlocks_next (lit "Tue Nov 03 2026") (lit "Mon Nov 02 2026")
              30 {| App.userState := App.initialUserState; App.view := App.ViewLesson;
                    App.currentTopic := Some (lit "greetings") |}
              [lit "greetings"; lit "family"] 0 (lit "greetings")
              eq_refl ltac:(discriminate) eq_refl) as (_ & H & _).
  exact H.
Defined.

(** ** The dictionary's history and the translator's switch *)

Lemma elem_of_take_inv {A : Type} (n : nat) (l : list A) (x : A) :
  x ∈ take n l → x ∈ l.
Proof. apply subseteq_take. Qed.

Lemma NoDup_take_inv {A : Type} (n : nat) (l : list A) :
  NoDup l → NoDup (take n l).
Proof. intros Hnd. eapply sublist_NoDup; [apply Hnd|apply sublist_take]. Qed.

(** X28. The search history after a word is saved: the word comes first, at
    most five entries are kept, every entry is the word or was in the
    history before, the word is not listed a second time, and a history
    without repetitions stays without repetitions. *)
Theorem saveHistory_most_recent_first (word : str) (history : list str) :
  let newHistory := Dictionary.saveHistory word history in
  head newHistory = Some word
  ∧ length newHistory ≤ 5
  ∧ (∀ w, w ∈ newHistory → w = word ∨ w ∈ history)
  ∧ (word ∉ tail newHistory)
  ∧ (NoDup history → NoDup newHistory).
Proof.
  cbn zeta. unfold Dictionary.saveHistory. simpl.
  split; [done|]. split; [rewrite length_take; lia|]. split; [|split].
  - intros w [->|Hw%elem_of_take_inv]%elem_of_cons; [by left|right].
    by apply list_elem_of_filter in Hw as [_ Hw].
  - intros Hw%elem_of_take_inv. by apply list_elem_of_filter in Hw as [Hw _].
  - intros Hnd. apply NoDup_cons. split.
    + intros Hw%elem_of_take_inv.
      by apply list_elem_of_filter in Hw as [Hw _].
    + apply NoDup_take_inv, NoDup_filter, Hnd.
Qed.

(** X29. Saving the word that is already first changes nothing: looking a
    word up twice in a row leaves the history as the first lookup made
    it. *)
Theorem saveHistory_idempotent (word : str) (history : list str) :
  Dictionary.saveHistory word (Dictionary.saveHistory word history)
  = Dictionary.saveHistory word history.
Proof.
  unfold Dictionary.saveHistory. cbn [take].
  rewrite filter_cons_False by (intros H; by apply H). f_equal.
  rewrite filter_fixed.
  - by rewrite take_idemp.
  - apply Forall_forall. intros w Hw%elem_of_take_inv.
    by apply list_elem_of_filter in Hw as [Hw _].
Qed.

(** X30. The translator's switch exchanges the two texts and the direction,
    and with it the language the output is spoken in; switching twice
    gives back the state before. *)
Theorem handleSwitch_involutive (st : Translator.TranslatorState) :
  Translator.handleSwitch (Translator.handleSwitch st) = st
  ∧ Translator.inputText (Translator.handleSwitch st) = Translator.outputText st
  ∧ Translator.outputText (Translator.handleSwitch st) = Translator.inputText st
  ∧ Translator.speechLang (Translator.handleSwitch st) ≠ Translator.speechLang st.
Proof.
  destruct st as [i o [] l]; by vm_compute.
Qed.
